(** * BarrierOptions: up-and-out barrier call, Monte Carlo and closed form

    A shallow embedding of the code cells of [BarrierOptions.ipynb].

    Numbers.  The notebook computes with IEEE doubles; here every float is
    idealised as a real number ([R]), so rounding, overflow and signed
    zeros are outside the model.  The places where Python or numpy leave
    the finite reals are kept explicit in the result type [res]:
      - [Raise e]   a Python exception ([math.log] of a non-positive
                    number, a Python division by zero, a numpy reduction
                    or broadcast that fails);
      - [NonFinite] a numpy operation produced [inf] or [nan] (numpy only
                    warns); the model does not follow the value further;
      - [Val v]     the finite value [v].

    Library functions ([math.log], [np.exp], [np.sqrt], [norm.cdf], ...)
    are modelled by their mathematical meaning. *)

From Stdlib Require Import Reals Lra Lia List ZArith Zfloor.
Import ListNotations.

Open Scope R_scope.

(** ** Results of Python evaluations *)

Inductive exn : Type :=
| ZeroDivisionError
| ValueError
| IndexError.

Inductive res (A : Type) : Type :=
| Val (a : A)
| NonFinite
| Raise (e : exn).

Arguments Val {A} a.
Arguments NonFinite {A}.
Arguments Raise {A} e.

Definition bind {A B : Type} (m : res A) (k : A -> res B) : res B :=
  match m with
  | Val a => k a
  | NonFinite => NonFinite
  | Raise e => Raise e
  end.

Notation "x <- m ;; k" := (bind m (fun x => k))
  (at level 61, m at next level, right associativity).
Notation "' p <- m ;; k" := (bind m (fun x => match x with p => k end))
  (at level 61, p pattern, m at next level, right associativity).

(** ** Python and numpy primitives *)

(** [x / y] on Python numbers. *)
Definition py_div (x y : R) : res R :=
  if Req_dec_T y 0 then Raise ZeroDivisionError else Val (x / y).

(** [x / y] when an operand is a numpy float. *)
Definition np_div (x y : R) : res R :=
  if Req_dec_T y 0 then NonFinite else Val (x / y).

(** [math.log]. *)
Definition math_log (s : R) : res R :=
  if Rlt_dec 0 s then Val (ln s) else Raise ValueError.

(** [np.sqrt] on a scalar. *)
Definition np_sqrt (x : R) : res R :=
  if Rle_dec 0 x then Val (sqrt x) else NonFinite.

(** [np.exp]. *)
Definition np_exp (x : R) : R := exp x.

(** [x ** y] on Python floats.  A negative base with a fractional exponent
    gives a complex number in Python 3, which is not a real value. *)
Definition py_pow (x y : R) : res R :=
  if Rlt_dec 0 x then Val (Rpower x y)
  else if Req_dec_T x 0 then
    if Rlt_dec y 0 then Raise ZeroDivisionError
    else if Req_dec_T y 0 then Val 1 else Val 0
  else if Req_dec_T y (IZR (Zfloor y)) then Val (powerRZ x (Zfloor y))
  else NonFinite.

(** ** The standard normal distribution function, [norm.cdf] *)

Definition gauss (t : R) : R := exp (- (t * t) / 2).

Lemma gauss_continuity : continuity gauss.
Proof.
  unfold gauss.
  change (continuity (comp exp (fun t => - (t * t) / 2))).
  apply continuity_comp.
  - intros x. unfold Rdiv.
    change (continuity_pt ((- (id * id)) * (fct_cte (/ 2)))%F x).
    apply continuity_pt_mult.
    + apply continuity_pt_opp. apply continuity_pt_mult;
        apply derivable_continuous_pt; apply derivable_pt_id.
    + apply continuity_pt_const. intros u v. reflexivity.
  - apply derivable_continuous. apply derivable_exp.
Qed.

Lemma gauss_integrable (a b : R) : Riemann_integrable gauss a b.
Proof.
  destruct (Rle_dec a b) as [Hab | Hab].
  - apply continuity_implies_RiemannInt; [exact Hab | ].
    intros x _. apply gauss_continuity.
  - apply RiemannInt_P1.
    apply continuity_implies_RiemannInt; [lra | ].
    intros x _. apply gauss_continuity.
Qed.

(** [gauss_int a b] is the integral of [exp (-t^2/2)] from [a] to [b]. *)
Definition gauss_int (a b : R) : R := RiemannInt (gauss_integrable a b).

(** Phi(x) = 1/2 + (1/sqrt(2 pi)) * integral from 0 to x of exp(-t^2/2). *)
Definition norm_cdf (x : R) : R := 1 / 2 + gauss_int 0 x / sqrt (2 * PI).

(** ** Cell 3: the closed-form price *)

(** [delta_plus] and [delta_minus]: the numerator is evaluated first
    ([math.log] may raise), then [sigma*np.sqrt(tau)], then the quotient,
    whose divisor is a numpy float. *)
Definition delta_plus (tau s sigma r : R) : res R :=
  l <- math_log s ;;
  q <- np_sqrt tau ;;
  np_div (l + (r + sigma ^ 2 / 2) * tau) (sigma * q).

Definition delta_minus (tau s sigma r : R) : res R :=
  l <- math_log s ;;
  q <- np_sqrt tau ;;
  np_div (l + (r - sigma ^ 2 / 2) * tau) (sigma * q).

Section Analytical.

(** The notebook reads these from module-level constants. *)
Variables S_0 K L T sigma r : R.

Definition p1 : res R :=
  s1 <- py_div S_0 K ;;
  d1 <- delta_plus T s1 sigma r ;;
  s2 <- py_div S_0 L ;;
  d2 <- delta_plus T s2 sigma r ;;
  Val ((norm_cdf d1 - norm_cdf d2) * S_0).

Definition p2 : res R :=
  s1 <- py_div S_0 K ;;
  d1 <- delta_minus T s1 sigma r ;;
  s2 <- py_div S_0 L ;;
  d2 <- delta_minus T s2 sigma r ;;
  Val ((norm_cdf d1 - norm_cdf d2) * K * np_exp (- r * T)).

Definition p3 : res R :=
  s1 <- py_div (L ^ 2) (K * S_0) ;;
  d1 <- delta_plus T s1 sigma r ;;
  s2 <- py_div L S_0 ;;
  d2 <- delta_plus T s2 sigma r ;;
  b <- py_div S_0 L ;;
  e <- py_div (- 2 * r) (sigma ^ 2) ;;
  w <- py_pow b e ;;
  Val ((norm_cdf d1 - norm_cdf d2) * L * w).

Definition p4 : res R :=
  s1 <- py_div (L ^ 2) (K * S_0) ;;
  d1 <- delta_minus T s1 sigma r ;;
  s2 <- py_div L S_0 ;;
  d2 <- delta_minus T s2 sigma r ;;
  b <- py_div S_0 L ;;
  e <- py_div (2 * r) (sigma ^ 2) ;;
  w <- py_pow b (1 - e) ;;
  Val ((norm_cdf d1 - norm_cdf d2) * K * np_exp (- r * T) * w).

Definition analytical_callprice : res R :=
  a <- p1 ;;
  b <- p2 ;;
  c <- p3 ;;
  d <- p4 ;;
  Val (a - b - c + d).

End Analytical.

(** ** Cell 2: path simulation and the Monte Carlo sweep *)

(** A two-dimensional numpy array: its column count is part of the shape
    even when there is no row. *)
Record ndarray2 : Type := mk_ndarray2 {
  ncols : nat;
  rows : list (list R)
}.

Definition well_shaped (Z : ndarray2) : Prop :=
  Forall (fun row => length row = ncols Z) (rows Z).

(** numpy broadcasting of a length-[n] vector against rows of length [m]. *)
Definition broadcast_len (n m : nat) : res nat :=
  if Nat.eqb n m then Val n
  else if Nat.eqb n 1 then Val m
  else if Nat.eqb m 1 then Val n
  else Raise ValueError.

Definition stretch (c : nat) (v : list R) : list R :=
  if Nat.eqb (length v) c then v else repeat (hd 0 v) c.

Fixpoint map2 (f : R -> R -> R) (u v : list R) : list R :=
  match u, v with
  | x :: u', y :: v' => f x y :: map2 f u' v'
  | _, _ => []
  end.

(** [np.sqrt] on a vector: one negative entry makes a [nan]. *)
Fixpoint np_sqrt_vec (t : list R) : res (list R) :=
  match t with
  | [] => Val []
  | x :: t' => q <- np_sqrt x ;; qs <- np_sqrt_vec t' ;; Val (q :: qs)
  end.

(** Maximum and last entry of a non-empty row. *)
Definition row_amax (row : list R) : R :=
  match row with
  | [] => 0
  | x :: row' => fold_left Rmax row' x
  end.

Definition row_last (row : list R) : R := last row 0.

(** [S_t = S_0*np.exp((r - sigma**2/2)*t + sigma*np.sqrt(t)*Z)] for one
    row of [Z], after broadcasting to [c] columns. *)
Definition path_prices (S_0 r sigma : R) (c : nat) (t sq z : list R) : list R :=
  let drift := map (fun ti => (r - sigma ^ 2 / 2) * ti) t in
  let vol := map (fun q => sigma * q) sq in
  map (fun e => S_0 * np_exp e)
      (map2 Rplus (stretch c drift) (map2 Rmult (stretch c vol) (stretch c z))).

Definition option_payoff (S_0 r sigma : R) (Z : ndarray2) (t : list R) (L : R)
  : res (list R) :=
  sq <- np_sqrt_vec t ;;
  c <- broadcast_len (length t) (ncols Z) ;;
  let S_t := map (path_prices S_0 r sigma c t sq) (rows Z) in
  (* np.amax(S_t, axis=1) has no identity on an empty axis *)
  if Nat.eqb c 0 then Raise ValueError
  else
    let S_m := map row_amax S_t in
    let S_T := map row_last S_t in
    Val (map2 (fun sT sm => sT * (if Rlt_dec sm L then 1 else 0)) S_T S_m).

Definition discounted_call_payoff (S_T : list R) (K r T : R) : list R :=
  map (fun s => np_exp (- r * T) * Rmax (s - K) 0) S_T.

(** [int(x)] truncates towards zero. *)
Definition py_int (x : R) : Z := if Rle_dec 0 x then Zfloor x else Zceil x.

(** [np.arange(start, stop, step)] for [step <> 0]:
    [ceil((stop - start)/step)] values [start + i*step]. *)
Definition np_arange (start stop step : R) : list R :=
  map (fun i => start + INR i * step)
      (seq 0 (Z.to_nat (Zceil ((stop - start) / step)))).

Definition sum_list (l : list R) : R := fold_right Rplus 0 l.

(** [np.mean] and [np.std] (default [ddof=0]); both give [nan] on an
    empty array. *)
Definition np_mean (l : list R) : res R :=
  match l with
  | [] => NonFinite
  | _ => Val (sum_list l / INR (length l))
  end.

Definition np_std (l : list R) : res R :=
  mu <- np_mean l ;;
  v <- np_mean (map (fun x => Rabs (x - mu) ^ 2) l) ;;
  np_sqrt v.

Definition months (T : R) : Z := py_int (T * 12).

(** The monitoring times of the loop body. *)
Definition monitoring_times (T : R) : list R :=
  np_arange (1 / 12) (IZR (months T + 1) / 12) (1 / 12).

(** The body of the sweep loop once the draws [Z_s] are known; [N] is the
    sample size [i*1000]. *)
Definition mc_trial (S_0 K L T sigma r : R) (N : nat) (Z_s : ndarray2)
  : res (R * R) :=
  let t := monitoring_times T in
  S_T <- option_payoff S_0 r sigma Z_s t L ;;
  let call_val := discounted_call_payoff S_T K r T in
  est <- np_mean call_val ;;
  sd <- np_std call_val ;;
  rootN <- np_sqrt (INR N) ;;
  se <- np_div sd rootN ;;
  Val (est, se).


Section Sweep.

(** The process-wide generator of numpy: its states, what
    [np.random.seed] makes of a state, and what [norm.rvs(size=[n, m])]
    draws from a state (the array and the state left behind). *)
Variable rng : Type.
Variable np_random_seed : rng -> Z -> rng.
Variable norm_rvs : rng -> nat -> nat -> ndarray2 * rng.

Variables S_0 K L T sigma r : R.





End Sweep.


(** ** Closed forms used in the statements *)

Definition d_plus (tau s sigma r : R) : R :=
  (ln s + (r + sigma ^ 2 / 2) * tau) / (sigma * sqrt tau).

Definition d_minus (tau s sigma r : R) : R :=
  (ln s + (r - sigma ^ 2 / 2) * tau) / (sigma * sqrt tau).

(** The four-term value with the exponents of the two powers of [S_0/L]
    left open. *)
Definition four_term (S_0 K L T sigma r e3 e4 : R) : R :=
    S_0 * (norm_cdf (d_plus T (S_0 / K) sigma r)
           - norm_cdf (d_plus T (S_0 / L) sigma r))
  - K * exp (- r * T)
      * (norm_cdf (d_minus T (S_0 / K) sigma r)
         - norm_cdf (d_minus T (S_0 / L) sigma r))
  - L * Rpower (S_0 / L) e3
      * (norm_cdf (d_plus T (L ^ 2 / (K * S_0)) sigma r)
         - norm_cdf (d_plus T (L / S_0) sigma r))
  + K * exp (- r * T) * Rpower (S_0 / L) e4
      * (norm_cdf (d_minus T (L ^ 2 / (K * S_0)) sigma r)
         - norm_cdf (d_minus T (L / S_0) sigma r)).

(** The price as section 4.3 of the specification writes it. *)
Definition spec_price (S_0 K L T sigma r : R) : R :=
  four_term S_0 K L T sigma r (- 2 * r / sigma ^ 2) (- 2 * r / sigma ^ 2 - 1).

(** The price with the exponents the code computes. *)
Definition code_price (S_0 K L T sigma r : R) : R :=
  four_term S_0 K L T sigma r (- 2 * r / sigma ^ 2) (1 - 2 * r / sigma ^ 2).

(** The plain two-term value [W S] at spot [S].  The code's four-term value
    is its reflection formula: [W S_0] minus [(S_0/L)^(1 - 2r/sigma^2)] times
    [W (L^2/S_0)], the value at the mirrored spot. *)
Definition two_term (S K L T sigma r : R) : R :=
    S * (norm_cdf (d_plus T (S / K) sigma r) - norm_cdf (d_plus T (S / L) sigma r))
  - K * exp (- r * T)
      * (norm_cdf (d_minus T (S / K) sigma r) - norm_cdf (d_minus T (S / L) sigma r)).



(** The simulated prices of one path, as section 4.1 writes them. *)
Definition spec_path (S_0 r sigma : R) (t z : list R) : list R :=
  map2 (fun ti zi => S_0 * exp ((r - sigma ^ 2 / 2) * ti + sigma * sqrt ti * zi)) t z.


(** The standard error with the population standard deviation. *)
Definition population_std_error (payoff : list R) : R :=
  let n := INR (length payoff) in
  let mean := sum_list payoff / n in
  sqrt (sum_list (map (fun x => (x - mean) ^ 2) payoff) / n) / sqrt n.

(** What [option_payoff] makes of one path. *)
Definition knocked_out_value (L : R) (S : list R) : R :=
  row_last S * (if Rlt_dec (row_amax S) L then 1 else 0).

(** A one-month contract with two paths: one draw of [0], one of [-1]. *)
Definition two_paths : ndarray2 := mk_ndarray2 1 [[0]; [-1]].







(** ** Facts about [gauss] and [norm_cdf] *)

Lemma gauss_pos (t : R) : 0 < gauss t.
Proof. unfold gauss. apply exp_pos. Qed.

Lemma exp_le_mono (x y : R) : x <= y -> exp x <= exp y.
Proof.
  intros [H | ->]; [left; now apply exp_increasing | right; reflexivity].
Qed.

Lemma gauss_le_1 (t : R) : gauss t <= 1.
Proof.
  unfold gauss. rewrite <- exp_0. apply exp_le_mono. nra.
Qed.

(** [gauss] decreases away from the origin. *)
Lemma gauss_antitone (x y : R) : x * x <= y * y -> gauss y <= gauss x.
Proof. intros H. unfold gauss. apply exp_le_mono. lra. Qed.

Lemma gauss_int_chasles (a b c : R) :
  gauss_int a b + gauss_int b c = gauss_int a c.
Proof. unfold gauss_int. apply RiemannInt_P26. Qed.

Lemma gauss_int_same (a : R) : gauss_int a a = 0.
Proof. unfold gauss_int. apply RiemannInt_P9. Qed.

Lemma gauss_int_lower (a b m : R) :
  a <= b -> (forall x, a < x < b -> m <= gauss x) ->
  m * (b - a) <= gauss_int a b.
Proof.
  intros Hab Hm. unfold gauss_int.
  rewrite <- (RiemannInt_P15 (RiemannInt_P14 a b m)).
  apply RiemannInt_P19; [exact Hab | ].
  intros x Hx. unfold fct_cte. now apply Hm.
Qed.

Lemma gauss_int_upper (a b m : R) :
  a <= b -> (forall x, a < x < b -> gauss x <= m) ->
  gauss_int a b <= m * (b - a).
Proof.
  intros Hab Hm. unfold gauss_int.
  rewrite <- (RiemannInt_P15 (RiemannInt_P14 a b m)).
  apply RiemannInt_P19; [exact Hab | ].
  intros x Hx. unfold fct_cte. now apply Hm.
Qed.

Lemma gauss_int_pos (a b : R) : a < b -> 0 < gauss_int a b.
Proof.
  intros Hab.
  set (m := gauss (Rmax (Rabs a) (Rabs b))).
  apply Rlt_le_trans with (m * (b - a)).
  - apply Rmult_lt_0_compat; [apply gauss_pos | lra].
  - apply gauss_int_lower; [lra | ].
    intros x Hx. apply gauss_antitone.
    assert (Hx' : Rabs x <= Rmax (Rabs a) (Rabs b)).
    { destruct (Rle_dec 0 x) as [Hx0 | Hx0].
      - rewrite (Rabs_right x) by lra.
        apply Rle_trans with (Rabs b); [ | apply Rmax_r].
        generalize (Rle_abs b). lra.
      - rewrite (Rabs_left x) by lra.
        apply Rle_trans with (Rabs a); [ | apply Rmax_l].
        generalize (Rle_abs (- a)). rewrite Rabs_Ropp. lra. }
    assert (H0 : 0 <= Rabs x) by apply Rabs_pos.
    replace (x * x) with (Rabs x * Rabs x).
    + nra.
    + unfold Rabs. destruct (Rcase_abs x); ring.
Qed.

Lemma gauss_int_nonneg (a b : R) : a <= b -> 0 <= gauss_int a b.
Proof.
  intros [H | ->]; [left; now apply gauss_int_pos | rewrite gauss_int_same; lra].
Qed.

Lemma sqrt_2PI_pos : 0 < sqrt (2 * PI).
Proof. apply sqrt_lt_R0. generalize PI_RGT_0. lra. Qed.

Lemma norm_cdf_diff (a b : R) :
  norm_cdf b - norm_cdf a = gauss_int a b / sqrt (2 * PI).
Proof.
  unfold norm_cdf. rewrite <- (gauss_int_chasles 0 a b).
  generalize sqrt_2PI_pos. intros H. field. lra.
Qed.

Lemma norm_cdf_increasing (a b : R) : a < b -> norm_cdf a < norm_cdf b.
Proof.
  intros Hab. cut (0 < norm_cdf b - norm_cdf a); [lra | ].
  rewrite norm_cdf_diff.
  apply Rdiv_lt_0_compat; [now apply gauss_int_pos | apply sqrt_2PI_pos].
Qed.

(** ** Evaluation of the primitives on their domains *)

Lemma py_div_val (x y : R) : y <> 0 -> py_div x y = Val (x / y).
Proof. intros H. unfold py_div. destruct (Req_dec_T y 0); [contradiction | reflexivity]. Qed.

Lemma np_div_val (x y : R) : y <> 0 -> np_div x y = Val (x / y).
Proof. intros H. unfold np_div. destruct (Req_dec_T y 0); [contradiction | reflexivity]. Qed.

Lemma math_log_val (s : R) : 0 < s -> math_log s = Val (ln s).
Proof. intros H. unfold math_log. destruct (Rlt_dec 0 s); [reflexivity | contradiction]. Qed.

Lemma np_sqrt_val (x : R) : 0 <= x -> np_sqrt x = Val (sqrt x).
Proof. intros H. unfold np_sqrt. destruct (Rle_dec 0 x); [reflexivity | contradiction]. Qed.

Lemma py_pow_val (x y : R) : 0 < x -> py_pow x y = Val (Rpower x y).
Proof. intros H. unfold py_pow. destruct (Rlt_dec 0 x); [reflexivity | contradiction]. Qed.

Lemma delta_plus_val (tau s sigma r : R) :
  0 < tau -> 0 < s -> sigma <> 0 ->
  delta_plus tau s sigma r = Val (d_plus tau s sigma r).
Proof.
  intros Htau Hs Hsig. unfold delta_plus.
  rewrite math_log_val by exact Hs. rewrite np_sqrt_val by lra. cbn [bind].
  apply np_div_val. apply Rmult_integral_contrapositive_currified; [exact Hsig | ].
  apply Rgt_not_eq. now apply sqrt_lt_R0.
Qed.

Lemma delta_minus_val (tau s sigma r : R) :
  0 < tau -> 0 < s -> sigma <> 0 ->
  delta_minus tau s sigma r = Val (d_minus tau s sigma r).
Proof.
  intros Htau Hs Hsig. unfold delta_minus.
  rewrite math_log_val by exact Hs. rewrite np_sqrt_val by lra. cbn [bind].
  apply np_div_val. apply Rmult_integral_contrapositive_currified; [exact Hsig | ].
  apply Rgt_not_eq. now apply sqrt_lt_R0.
Qed.

Section AnalyticalValue.

Variables S_0 K L T sigma r : R.
Hypothesis HS : 0 < S_0.
Hypothesis HK : 0 < K.
Hypothesis HL : 0 < L.
Hypothesis HT : 0 < T.
Hypothesis Hsig : sigma <> 0.

Lemma ratio_SK : 0 < S_0 / K.
Proof. now apply Rdiv_lt_0_compat. Qed.

Lemma ratio_SL : 0 < S_0 / L.
Proof. now apply Rdiv_lt_0_compat. Qed.

Lemma ratio_LS : 0 < L / S_0.
Proof. now apply Rdiv_lt_0_compat. Qed.

Lemma ratio_LL : 0 < L ^ 2 / (K * S_0).
Proof. apply Rdiv_lt_0_compat; nra. Qed.

Lemma sig2 : sigma ^ 2 <> 0.
Proof. apply pow_nonzero. exact Hsig. Qed.

Ltac ratios :=
  pose proof ratio_SK; pose proof ratio_SL; pose proof ratio_LS;
  pose proof ratio_LL.

Lemma p1_val :
  p1 S_0 K L T sigma r =
  Val ((norm_cdf (d_plus T (S_0 / K) sigma r)
        - norm_cdf (d_plus T (S_0 / L) sigma r)) * S_0).
Proof.
  ratios. unfold p1.
  rewrite !py_div_val by lra. cbn [bind].
  rewrite !delta_plus_val by assumption. reflexivity.
Qed.

Lemma p2_val :
  p2 S_0 K L T sigma r =
  Val ((norm_cdf (d_minus T (S_0 / K) sigma r)
        - norm_cdf (d_minus T (S_0 / L) sigma r)) * K * exp (- r * T)).
Proof.
  ratios. unfold p2.
  rewrite !py_div_val by lra. cbn [bind].
  rewrite !delta_minus_val by assumption. reflexivity.
Qed.

Lemma p3_val :
  p3 S_0 K L T sigma r =
  Val ((norm_cdf (d_plus T (L ^ 2 / (K * S_0)) sigma r)
        - norm_cdf (d_plus T (L / S_0) sigma r))
       * L * Rpower (S_0 / L) (- 2 * r / sigma ^ 2)).
Proof.
  ratios. unfold p3.
  rewrite (py_div_val (L ^ 2)) by nra. cbn [bind].
  rewrite delta_plus_val by assumption. cbn [bind].
  rewrite (py_div_val L) by lra. cbn [bind].
  rewrite delta_plus_val by assumption. cbn [bind].
  rewrite (py_div_val S_0) by lra. cbn [bind].
  rewrite py_div_val by exact sig2. cbn [bind].
  rewrite py_pow_val by exact ratio_SL. reflexivity.
Qed.

Lemma p4_val :
  p4 S_0 K L T sigma r =
  Val ((norm_cdf (d_minus T (L ^ 2 / (K * S_0)) sigma r)
        - norm_cdf (d_minus T (L / S_0) sigma r))
       * K * exp (- r * T) * Rpower (S_0 / L) (1 - 2 * r / sigma ^ 2)).
Proof.
  ratios. unfold p4.
  rewrite (py_div_val (L ^ 2)) by nra. cbn [bind].
  rewrite delta_minus_val by assumption. cbn [bind].
  rewrite (py_div_val L) by lra. cbn [bind].
  rewrite delta_minus_val by assumption. cbn [bind].
  rewrite (py_div_val S_0) by lra. cbn [bind].
  rewrite py_div_val by exact sig2. cbn [bind].
  rewrite py_pow_val by exact ratio_SL. reflexivity.
Qed.

Lemma analytical_callprice_val :
  analytical_callprice S_0 K L T sigma r = Val (code_price S_0 K L T sigma r).
Proof.
  unfold analytical_callprice.
  rewrite p1_val, p2_val, p3_val, p4_val. cbn [bind].
  apply f_equal. unfold code_price, four_term. ring.
Qed.

End AnalyticalValue.

(** ** The helper functions [delta_plus] and [delta_minus] *)

(** C10.  For [tau > 0], [s > 0], [sigma > 0] and any [r], both helpers
    return a number and [delta_plus - delta_minus = sigma * sqrt tau]. *)
Theorem delta_plus_minus_gap (tau s sigma r : R) :
  0 < tau -> 0 < s -> 0 < sigma ->
  exists dp dm : R,
    delta_plus tau s sigma r = Val dp /\
    delta_minus tau s sigma r = Val dm /\
    dp - dm = sigma * sqrt tau.
Proof.
  intros Htau Hs Hsig.
  exists (d_plus tau s sigma r), (d_minus tau s sigma r).
  split; [apply delta_plus_val; lra | ].
  split; [apply delta_minus_val; lra | ].
  unfold d_plus, d_minus.
  assert (Hq : 0 < sqrt tau) by now apply sqrt_lt_R0.
  assert (Hqq : sqrt tau * sqrt tau = tau) by (apply sqrt_sqrt; lra).
  apply Rmult_eq_reg_r with (sigma * sqrt tau); [ | nra].
  transitivity (sigma ^ 2 * tau); [field; lra | ].
  rewrite <- Hqq at 1. ring.
Qed.

Lemma delta_plus_minus_gap_witness :
  exists dp dm : R,
    delta_plus 1 (3 / 2) (3 / 10) (8 / 100) = Val dp /\
    delta_minus 1 (3 / 2) (3 / 10) (8 / 100) = Val dm /\
    dp - dm = 3 / 10 * sqrt 1.
Proof. apply (delta_plus_minus_gap 1 (3 / 2) (3 / 10) (8 / 100)); lra. Defined.

(** ** The closed-form price *)

Lemma Rpower_succ (x y : R) : 0 < x -> Rpower x (1 + y) = x * Rpower x y.
Proof. intros Hx. rewrite Rpower_plus, Rpower_1 by exact Hx. reflexivity. Qed.

Lemma code_price_reflection (S_0 K L T sigma r : R) :
  0 < S_0 -> 0 < K -> 0 < L ->
  code_price S_0 K L T sigma r =
  two_term S_0 K L T sigma r
  - Rpower (S_0 / L) (1 - 2 * r / sigma ^ 2) * two_term (L ^ 2 / S_0) K L T sigma r.
Proof.
  intros HS HK HL.
  assert (Hx : 0 < S_0 / L) by now apply Rdiv_lt_0_compat.
  unfold code_price, four_term, two_term.
  replace (L ^ 2 / S_0 / K) with (L ^ 2 / (K * S_0)) by (field; lra).
  replace (L ^ 2 / S_0 / L) with (L / S_0) by (field; lra).
  replace (1 - 2 * r / sigma ^ 2) with (1 + (- 2 * r / sigma ^ 2))
    by (unfold Rdiv; ring).
  rewrite Rpower_succ by exact Hx.
  set (w := Rpower (S_0 / L) (- 2 * r / sigma ^ 2)).
  field. lra.
Qed.

(** C1, as the code has it.  For positive [S_0], [K], [L], [T], [sigma] the
    pricer returns the four-term value in which the power of [S_0/L] in the
    fourth term has exponent [1 - 2r/sigma^2]. *)
Theorem analytical_callprice_four_term (S_0 K L T sigma r : R) :
  0 < S_0 -> 0 < K -> 0 < L -> 0 < T -> 0 < sigma ->
  analytical_callprice S_0 K L T sigma r =
  Val (four_term S_0 K L T sigma r (- 2 * r / sigma ^ 2) (1 - 2 * r / sigma ^ 2)).
Proof.
  intros HS HK HL HT Hsig.
  rewrite analytical_callprice_val by lra. reflexivity.
Qed.

Lemma analytical_callprice_four_term_witness :
  analytical_callprice 100 100 150 1 (3 / 10) (8 / 100) =
  Val (four_term 100 100 150 1 (3 / 10) (8 / 100)
         (- 2 * (8 / 100) / (3 / 10) ^ 2) (1 - 2 * (8 / 100) / (3 / 10) ^ 2)).
Proof.
  apply (analytical_callprice_four_term 100 100 150 1 (3 / 10) (8 / 100)); lra.
Defined.

(** [d_minus] grows with its second argument. *)
Lemma d_minus_increasing (T sigma r s1 s2 : R) :
  0 < T -> 0 < sigma -> 0 < s1 -> s1 < s2 ->
  d_minus T s1 sigma r < d_minus T s2 sigma r.
Proof.
  intros HT Hsig Hs1 Hs.
  assert (Hq : 0 < sqrt T) by now apply sqrt_lt_R0.
  assert (Hln : ln s1 < ln s2) by (apply ln_increasing; lra).
  unfold d_minus, Rdiv. apply Rmult_lt_compat_r.
  - apply Rinv_0_lt_compat. nra.
  - lra.
Qed.

Lemma Rpower_exponent_inj (x a b : R) :
  0 < x -> x <> 1 -> Rpower x a = Rpower x b -> a = b.
Proof.
  intros Hx Hx1 H. unfold Rpower in H. apply exp_inv in H.
  assert (Hl : ln x <> 0) by now apply ln_neq_0.
  apply Rmult_eq_reg_r with (ln x); assumption.
Qed.

(** C1 as the specification writes it fails on the notebook's own
    parameters: the code's value is not the one with exponent
    [-2r/sigma^2 - 1]. *)
Lemma analytical_callprice_not_spec_price :
  analytical_callprice 100 100 150 1 (3 / 10) (8 / 100)
  <> Val (spec_price 100 100 150 1 (3 / 10) (8 / 100)).
Proof.
  rewrite analytical_callprice_val by lra.
  intros H. injection H as H.
  unfold code_price, spec_price, four_term in H.
  set (B := norm_cdf (d_minus 1 (150 ^ 2 / (100 * 100)) (3 / 10) (8 / 100))
            - norm_cdf (d_minus 1 (150 / 100) (3 / 10) (8 / 100))) in H.
  set (w3 := Rpower (100 / 150) (- 2 * (8 / 100) / (3 / 10) ^ 2)) in H.
  set (w4 := Rpower (100 / 150) (1 - 2 * (8 / 100) / (3 / 10) ^ 2)) in H.
  set (w4' := Rpower (100 / 150) (- 2 * (8 / 100) / (3 / 10) ^ 2 - 1)) in H.
  assert (HB : 0 < B).
  { unfold B. apply Rlt_0_minus. apply norm_cdf_increasing.
    apply d_minus_increasing; lra. }
  assert (He : 0 < exp (- (8 / 100) * 1)) by apply exp_pos.
  assert (Hw : w4 = w4').
  { apply Rmult_eq_reg_l with (100 * exp (- (8 / 100) * 1) * B); [lra | ].
    apply Rgt_not_eq. apply Rmult_lt_0_compat; [lra | exact HB]. }
  apply Rpower_exponent_inj in Hw; lra.
Qed.

(** C9.  Scaling [S_0], [K] and [L] by the same [c > 0] multiplies the
    analytical price by [c]. *)
Theorem analytical_callprice_homogeneous (c S_0 K L T sigma r : R) :
  0 < c -> 0 < S_0 -> 0 < K -> 0 < L -> 0 < T -> 0 < sigma ->
  exists v : R,
    analytical_callprice S_0 K L T sigma r = Val v /\
    analytical_callprice (c * S_0) (c * K) (c * L) T sigma r = Val (c * v).
Proof.
  intros Hc HS HK HL HT Hsig.
  exists (code_price S_0 K L T sigma r).
  split; [apply analytical_callprice_val; lra | ].
  rewrite analytical_callprice_val by nra.
  apply f_equal. unfold code_price, four_term.
  replace (c * S_0 / (c * K)) with (S_0 / K) by (field; lra).
  replace (c * S_0 / (c * L)) with (S_0 / L) by (field; lra).
  replace (c * L / (c * S_0)) with (L / S_0) by (field; lra).
  replace ((c * L) ^ 2 / (c * K * (c * S_0))) with (L ^ 2 / (K * S_0))
    by (field; lra).
  ring.
Qed.

Lemma analytical_callprice_homogeneous_witness :
  exists v : R,
    analytical_callprice 100 100 150 1 (3 / 10) (8 / 100) = Val v /\
    analytical_callprice (2 * 100) (2 * 100) (2 * 150) 1 (3 / 10) (8 / 100)
    = Val (2 * v).
Proof.
  apply (analytical_callprice_homogeneous 2 100 100 150 1 (3 / 10) (8 / 100)); lra.
Defined.

(** C5, as the code has it.  There is no special case for a breached
    barrier; the four-term value is what is returned, and it is exactly [0]
    when the barrier sits at the spot, [L = S_0]. *)
Theorem analytical_callprice_at_barrier (S_0 K T sigma r : R) :
  0 < S_0 -> 0 < K -> 0 < T -> 0 < sigma ->
  analytical_callprice S_0 K S_0 T sigma r = Val 0.
Proof.
  intros HS HK HT Hsig.
  rewrite analytical_callprice_val by lra.
  apply f_equal. unfold code_price, four_term.
  replace (S_0 ^ 2 / (K * S_0)) with (S_0 / K) by (field; lra).
  replace (S_0 / S_0) with 1 by (field; lra).
  unfold Rpower. rewrite ln_1, !Rmult_0_r, exp_0. ring.
Qed.

Lemma analytical_callprice_at_barrier_witness :
  analytical_callprice 100 100 100 1 (3 / 10) (8 / 100) = Val 0.
Proof.
  apply (analytical_callprice_at_barrier 100 100 1 (3 / 10) (8 / 100)); lra.
Defined.

(** ** Numerical bounds for a breached barrier *)

Lemma ln_2_lt_1 : ln 2 < 1.
Proof.
  rewrite <- (ln_exp 1). apply ln_increasing; [lra | ].
  generalize (exp_ineq1 1). lra.
Qed.

Lemma ln_between_pow2 (x : R) (n : nat) :
  2 ^ n < x -> x < 2 ^ S n -> INR n / 2 <= ln x < INR (S n).
Proof.
  intros Hlo Hhi.
  assert (Hp : 0 < 2 ^ n) by (apply pow_lt; lra).
  assert (H1 : ln (2 ^ n) < ln x) by (apply ln_increasing; lra).
  assert (H2 : ln x < ln (2 ^ S n)) by (apply ln_increasing; lra).
  rewrite ln_pow in H1, H2 by lra.
  assert (Hn : 0 <= INR n) by apply pos_INR.
  assert (Hn1 : 0 < INR (S n)) by (apply lt_0_INR; lia).
  generalize ln_lt_2 ln_2_lt_1. intros Ha Hb.
  split; nra.
Qed.

Lemma exp_nat (n : nat) : exp (INR n) = exp 1 ^ n.
Proof.
  induction n as [ | n IH].
  - simpl. apply exp_0.
  - rewrite S_INR, exp_plus, IH. simpl. ring.
Qed.

Lemma gauss_7 : gauss 7 <= / 2 ^ 24.
Proof.
  unfold gauss. apply Rle_trans with (exp (- INR 24)).
  - apply exp_le_mono. simpl. lra.
  - rewrite exp_Ropp, exp_nat.
    apply Rinv_le_contravar; [apply pow_lt; lra | ].
    apply pow_incr. generalize (exp_ineq1 1). lra.
Qed.

Lemma gauss_1 : / 2 <= gauss 1.
Proof.
  unfold gauss. replace (- (1 * 1) / 2) with (- (1 / 2)) by lra.
  rewrite exp_Ropp.
  assert (Hh : 0 < exp (1 / 2)) by apply exp_pos.
  apply Rinv_le_contravar; [exact Hh | ].
  assert (Hsq : exp (1 / 2) * exp (1 / 2) <= 3).
  { rewrite <- exp_plus. replace (1 / 2 + 1 / 2) with 1 by lra. apply exp_le_3. }
  nra.
Qed.

Lemma gauss_int_far (a b : R) :
  7 <= a -> a <= b -> gauss_int a b <= / 2 ^ 24 * (b - a).
Proof.
  intros Ha Hab.
  apply Rle_trans with (gauss 7 * (b - a)).
  - apply gauss_int_upper; [exact Hab | ].
    intros x Hx. apply gauss_antitone. nra.
  - apply Rmult_le_compat_r; [lra | apply gauss_7].
Qed.

Lemma gauss_int_core (a b : R) : a <= -1 -> 1 <= b -> 1 <= gauss_int a b.
Proof.
  intros Ha Hb.
  rewrite <- (gauss_int_chasles a (-1) b), <- (gauss_int_chasles (-1) 1 b).
  assert (H1 : 0 <= gauss_int a (-1)) by now apply gauss_int_nonneg.
  assert (H2 : 0 <= gauss_int 1 b) by now apply gauss_int_nonneg.
  assert (H3 : / 2 * (1 - -1) <= gauss_int (-1) 1).
  { apply gauss_int_lower; [lra | ].
    intros x Hx. apply Rle_trans with (gauss 1); [apply gauss_1 | ].
    apply gauss_antitone. nra. }
  lra.
Qed.

Lemma gauss_int_le_length (a b : R) : a <= b -> gauss_int a b <= b - a.
Proof.
  intros Hab. rewrite <- (Rmult_1_l (b - a)).
  apply gauss_int_upper; [exact Hab | ]. intros x _. apply gauss_le_1.
Qed.

Lemma breached_barrier_negative :
  code_price 100 (1 / 10000) 5 1 (3 / 10) (8 / 100) < 0.
Proof.
  unfold code_price, four_term.
  replace (100 / (1 / 10000)) with 1000000 by lra.
  replace (100 / 5) with 20 by lra.
  replace (5 ^ 2 / (1 / 10000 * 100)) with 2500 by lra.
  replace (5 / 100) with (/ 20) by lra.
  replace (- 2 * (8 / 100) / (3 / 10) ^ 2) with (- (16 / 9)) by lra.
  replace (1 - 2 * (8 / 100) / (3 / 10) ^ 2) with (- (7 / 9)) by lra.
  rewrite !norm_cdf_diff.
  generalize sqrt_2PI_pos. set (q := sqrt (2 * PI)). intros Hq.
  (* logarithms *)
  assert (L20 : 2 <= ln 20 < 5).
  { destruct (ln_between_pow2 20 4) as [X Y];
      [simpl; lra | simpl; lra | simpl in X, Y; lra]. }
  assert (L6 : 19 / 2 <= ln 1000000 < 20).
  { destruct (ln_between_pow2 1000000 19) as [X Y];
      [simpl; lra | simpl; lra | simpl in X, Y; lra]. }
  assert (L25 : 11 / 2 <= ln 2500 < 12).
  { destruct (ln_between_pow2 2500 11) as [X Y];
      [simpl; lra | simpl; lra | simpl in X, Y; lra]. }
  assert (Li : ln (/ 20) = - ln 20) by (apply ln_Rinv; lra).
  (* arguments of the distribution function *)
  unfold d_plus, d_minus. rewrite sqrt_1, Li.
  set (a1 := (ln 20 + (8 / 100 + (3 / 10) ^ 2 / 2) * 1) / (3 / 10 * 1)).
  set (b1 := (ln 1000000 + (8 / 100 + (3 / 10) ^ 2 / 2) * 1) / (3 / 10 * 1)).
  set (a2 := (ln 20 + (8 / 100 - (3 / 10) ^ 2 / 2) * 1) / (3 / 10 * 1)).
  set (b2 := (ln 1000000 + (8 / 100 - (3 / 10) ^ 2 / 2) * 1) / (3 / 10 * 1)).
  set (a3 := (- ln 20 + (8 / 100 + (3 / 10) ^ 2 / 2) * 1) / (3 / 10 * 1)).
  set (b3 := (ln 2500 + (8 / 100 + (3 / 10) ^ 2 / 2) * 1) / (3 / 10 * 1)).
  set (a4 := (- ln 20 + (8 / 100 - (3 / 10) ^ 2 / 2) * 1) / (3 / 10 * 1)).
  set (b4 := (ln 2500 + (8 / 100 - (3 / 10) ^ 2 / 2) * 1) / (3 / 10 * 1)).
  assert (Ha1 : 7 <= a1 /\ a1 <= b1 /\ b1 - a1 <= 60) by (unfold a1, b1; lra).
  assert (Ha2 : a2 <= b2) by (unfold a2, b2; lra).
  assert (Ha3 : a3 <= -1 /\ 1 <= b3) by (unfold a3, b3; lra).
  assert (Ha4 : a4 <= b4 /\ b4 - a4 <= 57) by (unfold a4, b4; lra).
  (* the four integrals *)
  assert (I1 : gauss_int a1 b1 <= / 2 ^ 24 * 60).
  { apply Rle_trans with (/ 2 ^ 24 * (b1 - a1)).
    - apply gauss_int_far; lra.
    - apply Rmult_le_compat_l; [ | lra].
      left. apply Rinv_0_lt_compat. apply pow_lt. lra. }
  assert (I2 : 0 <= gauss_int a2 b2) by now apply gauss_int_nonneg.
  assert (I3 : 1 <= gauss_int a3 b3) by (apply gauss_int_core; lra).
  assert (I4 : 0 <= gauss_int a4 b4 <= 57).
  { split; [now apply gauss_int_nonneg | ].
    apply Rle_trans with (b4 - a4); [apply gauss_int_le_length | ]; lra. }
  (* the discount factor and the two powers *)
  assert (HE : 0 < exp (- (8 / 100) * 1) <= 1).
  { split; [apply exp_pos | ].
    apply Rle_trans with (exp 0); [apply exp_le_mono; lra | rewrite exp_0; lra]. }
  assert (W3 : / 400 <= Rpower 20 (- (16 / 9))).
  { replace (/ 400) with (Rpower 20 (- INR 2)).
    - left. apply Rpower_lt; simpl; lra.
    - rewrite Rpower_Ropp, Rpower_pow by lra. simpl. lra. }
  assert (W4 : 0 < Rpower 20 (- (7 / 9)) <= 1).
  { split; [unfold Rpower; apply exp_pos | ].
    apply Rle_trans with (Rpower 20 0); [ | rewrite Rpower_O; lra].
    left. apply Rpower_lt; lra. }
  clearbody a1 b1 a2 b2 a3 b3 a4 b4 q.
  set (E := exp (- (8 / 100) * 1)) in *.
  set (w3 := Rpower 20 (- (16 / 9))) in *.
  set (w4 := Rpower 20 (- (7 / 9))) in *.
  set (i1 := gauss_int a1 b1) in *. set (i2 := gauss_int a2 b2) in *.
  set (i3 := gauss_int a3 b3) in *. set (i4 := gauss_int a4 b4) in *.
  clearbody E w3 w4 i1 i2 i3 i4.
  assert (P2 : 0 <= 1 / 10000 * E * i2).
  { apply Rmult_le_pos; [ | exact I2]. lra. }
  assert (P3 : / 80 <= 5 * w3 * i3).
  { assert (0 <= w3) by lra. nra. }
  assert (P4 : 1 / 10000 * E * w4 * i4 <= 57 / 10000).
  { assert (Ew : 0 <= E * w4 <= 1) by (split; nra).
    assert (Ewi : E * w4 * i4 <= 57) by nra. lra. }
  assert (P1 : 100 * i1 <= 6000 / 2 ^ 24) by (simpl in *; lra).
  apply Rmult_lt_reg_r with q; [exact Hq | ].
  replace (0 * q) with 0 by ring.
  replace ((100 * (i1 / q) - 1 / 10000 * E * (i2 / q) - 5 * w3 * (i3 / q)
            + 1 / 10000 * E * w4 * (i4 / q)) * q)
    with (100 * i1 - 1 / 10000 * E * i2 - 5 * w3 * i3 + 1 / 10000 * E * w4 * i4)
    by (field; lra).
  simpl in P1. lra.
Qed.

(** C5 as the specification writes it fails for a barrier below the spot:
    with the notebook's rate, volatility, maturity and spot, a strike of
    [0.0001] and the barrier at [5 <= 100], the price returned is not [0]
    (it is negative). *)
Lemma analytical_callprice_breached_nonzero :
  5 <= 100 /\
  analytical_callprice 100 (1 / 10000) 5 1 (3 / 10) (8 / 100) <> Val 0.
Proof.
  split; [lra | ].
  rewrite analytical_callprice_val by lra.
  intros H. injection H as H.
  generalize breached_barrier_negative. lra.
Qed.

(** ** The monitoring schedule *)

Lemma Zceil_IZR (z : Z) : Zceil (IZR z) = z.
Proof. apply Zceil_eq. lra. Qed.

Lemma months_floor (T : R) : 0 <= T -> months T = Zfloor (T * 12).
Proof.
  intros HT. unfold months, py_int.
  destruct (Rle_dec 0 (T * 12)) as [H | H]; [reflexivity | lra].
Qed.


Lemma np_arange_twelfths (m : Z) :
  np_arange (1 / 12) (IZR (m + 1) / 12) (1 / 12) =
  map (fun i => INR i / 12) (seq 1 (Z.to_nat m)).
Proof.
  unfold np_arange.
  replace ((IZR (m + 1) / 12 - 1 / 12) / (1 / 12)) with (IZR m)
    by (rewrite plus_IZR; field).
  rewrite Zceil_IZR, <- seq_shift, map_map.
  apply map_ext. intros i. rewrite S_INR. field.
Qed.

Lemma monitoring_times_eq (T : R) :
  monitoring_times T = map (fun i => INR i / 12) (seq 1 (Z.to_nat (months T))).
Proof. unfold monitoring_times. apply np_arange_twelfths. Qed.

Lemma monitoring_times_length (T : R) :
  length (monitoring_times T) = Z.to_nat (months T).
Proof. rewrite monitoring_times_eq, length_map, length_seq. reflexivity. Qed.

Lemma monitoring_times_nonneg (T : R) :
  Forall (fun ti => 0 <= ti) (monitoring_times T).
Proof.
  rewrite monitoring_times_eq. apply Forall_forall.
  intros x Hx. apply in_map_iff in Hx. destruct Hx as [i [<- _]].
  generalize (pos_INR i). lra.
Qed.





(** ** The path simulator *)

Lemma np_sqrt_vec_val (t : list R) :
  Forall (fun ti => 0 <= ti) t -> np_sqrt_vec t = Val (map sqrt t).
Proof.
  induction 1 as [ | x t Hx Ht IH]; [reflexivity | ].
  cbn [np_sqrt_vec map]. rewrite np_sqrt_val by exact Hx. cbn [bind].
  rewrite IH. reflexivity.
Qed.

Lemma broadcast_len_same (n : nat) : broadcast_len n n = Val n.
Proof. unfold broadcast_len. rewrite Nat.eqb_refl. reflexivity. Qed.

Lemma stretch_same (c : nat) (v : list R) : length v = c -> stretch c v = v.
Proof. intros H. unfold stretch. rewrite H, Nat.eqb_refl. reflexivity. Qed.

Lemma map2_length (f : R -> R -> R) (u v : list R) :
  length u = length v -> length (map2 f u v) = length u.
Proof.
  revert v. induction u as [ | x u IH]; intros [ | y v] H; try discriminate.
  - reflexivity.
  - cbn [map2 length]. f_equal. apply IH. now injection H.
Qed.

Lemma map2_map_same {A : Type} (f : R -> R -> R) (g h : A -> R) (l : list A) :
  map2 f (map g l) (map h l) = map (fun x => f (g x) (h x)) l.
Proof.
  induction l as [ | x l IH]; [reflexivity | ].
  cbn [map map2]. rewrite IH. reflexivity.
Qed.

Lemma path_prices_spec (S_0 r sigma : R) (t z : list R) :
  length z = length t ->
  path_prices S_0 r sigma (length t) t (map sqrt t) z = spec_path S_0 r sigma t z.
Proof.
  intros Hz. unfold path_prices, spec_path.
  rewrite !stretch_same by (rewrite ?length_map; auto).
  revert z Hz. induction t as [ | ti t IH]; intros [ | zi z] Hz; try discriminate.
  - reflexivity.
  - cbn [map map2]. rewrite IH by (now injection Hz). reflexivity.
Qed.

Lemma fold_left_Rmax_lt (l : list R) (x b : R) :
  fold_left Rmax l x < b <-> x < b /\ Forall (fun p => p < b) l.
Proof.
  revert x. induction l as [ | y l IH]; intros x; cbn [fold_left].
  - split; [intros H; split; [exact H | constructor] | intros [H _]; exact H].
  - rewrite IH. split.
    + intros [Hm Hl]. unfold Rmax in Hm. destruct (Rle_dec x y) as [Hxy | Hxy].
      * split; [lra | constructor; assumption].
      * split; [exact Hm | constructor; [lra | exact Hl]].
    + intros [Hx Hl]. inversion Hl as [ | ? ? Hy Hl']; subst.
      split; [ | exact Hl'].
      unfold Rmax. destruct (Rle_dec x y); lra.
Qed.

Lemma row_amax_lt (row : list R) (b : R) :
  row <> [] -> (row_amax row < b <-> Forall (fun p => p < b) row).
Proof.
  destruct row as [ | x row]; [congruence | intros _].
  cbn [row_amax]. rewrite fold_left_Rmax_lt. split.
  - intros [Hx Hl]. constructor; assumption.
  - intros H. inversion H; subst. split; assumption.
Qed.

Lemma option_payoff_val (S_0 r sigma : R) (Z : ndarray2) (t : list R) (L : R) :
  t <> [] -> Forall (fun ti => 0 <= ti) t ->
  well_shaped Z -> ncols Z = length t ->
  option_payoff S_0 r sigma Z t L =
  Val (map (fun z => knocked_out_value L (spec_path S_0 r sigma t z)) (rows Z)).
Proof.
  intros Ht Hpos HZ Hcols. unfold option_payoff.
  rewrite np_sqrt_vec_val by exact Hpos. cbn [bind].
  rewrite Hcols, broadcast_len_same. cbn [bind].
  destruct (Nat.eqb_spec (length t) 0) as [H0 | _].
  { destruct t; [congruence | discriminate]. }
  apply f_equal. rewrite map2_map_same, map_map.
  apply map_ext_in. intros z Hz.
  unfold well_shaped in HZ. rewrite Forall_forall in HZ.
  rewrite path_prices_spec by (rewrite <- Hcols; now apply HZ).
  reflexivity.
Qed.

Lemma spec_path_nonempty (S_0 r sigma : R) (t z : list R) :
  t <> [] -> length z = length t -> spec_path S_0 r sigma t z <> [].
Proof.
  intros Ht Hz. destruct t as [ | ti t]; [congruence | ].
  destruct z as [ | zi z]; [discriminate | ]. discriminate.
Qed.

(** C2.  For a monitoring grid [t_1..t_m] ([m >= 1], times not negative)
    and an [N x m] array [Z] of draws, [option_payoff] returns [N] values;
    the one of a path is its last simulated price if all its simulated
    prices are strictly below [L], and [0] otherwise, the price at step [i]
    being [S_0 * exp((r - sigma^2/2) * t_i + sigma * sqrt(t_i) * Z[path, i])]. *)
Theorem option_payoff_barrier (S_0 r sigma : R) (Z : ndarray2) (t : list R) (L : R) :
  t <> [] -> Forall (fun ti => 0 <= ti) t ->
  well_shaped Z -> ncols Z = length t ->
  exists out : list R,
    option_payoff S_0 r sigma Z t L = Val out /\
    length out = length (rows Z) /\
    forall (j : nat) (z : list R),
      nth_error (rows Z) j = Some z ->
      let S :=
        map2 (fun ti zi =>
                S_0 * exp ((r - sigma ^ 2 / 2) * ti + sigma * sqrt ti * zi)) t z in
      (Forall (fun p => p < L) S -> nth_error out j = Some (last S 0)) /\
      (Exists (fun p => L <= p) S -> nth_error out j = Some 0).
Proof.
  intros Ht Hpos HZ Hcols.
  eexists. split; [apply option_payoff_val; assumption | ].
  split; [apply length_map | ].
  intros j z Hj S.
  assert (Hz : length z = length t).
  { unfold well_shaped in HZ. rewrite Forall_forall in HZ.
    rewrite <- Hcols. apply HZ. eapply nth_error_In. exact Hj. }
  assert (HS : S <> []) by (apply spec_path_nonempty; assumption).
  rewrite nth_error_map, Hj. cbn [option_map].
  change (spec_path S_0 r sigma t z) with S.
  unfold knocked_out_value, row_last. split.
  - intros Hall. apply (row_amax_lt S L HS) in Hall.
    destruct (Rlt_dec (row_amax S) L) as [_ | Hn]; [ | contradiction].
    f_equal. ring.
  - intros Hex.
    destruct (Rlt_dec (row_amax S) L) as [Hlt | _].
    + apply (row_amax_lt S L HS) in Hlt. rewrite Forall_forall in Hlt.
      apply Exists_exists in Hex. destruct Hex as [p [Hin Hp]].
      apply Hlt in Hin. lra.
    + f_equal. ring.
Qed.

Lemma option_payoff_barrier_witness :
  exists out : list R,
    option_payoff 100 (8 / 100) (3 / 10) (mk_ndarray2 1 [[0]; [-1]]) [1 / 12] 150
    = Val out /\
    length out = 2%nat /\
    forall (j : nat) (z : list R),
      nth_error [[0]; [-1]] j = Some z ->
      let S :=
        map2 (fun ti zi =>
                100 * exp ((8 / 100 - (3 / 10) ^ 2 / 2) * ti + 3 / 10 * sqrt ti * zi))
             [1 / 12] z in
      (Forall (fun p => p < 150) S -> nth_error out j = Some (last S 0)) /\
      (Exists (fun p => 150 <= p) S -> nth_error out j = Some 0).
Proof.
  apply (option_payoff_barrier 100 (8 / 100) (3 / 10)
           (mk_ndarray2 1 [[0]; [-1]]) [1 / 12] 150).
  - discriminate.
  - repeat constructor. lra.
  - repeat constructor.
  - reflexivity.
Defined.

(** ** The Monte Carlo estimator *)

Lemma np_mean_val (l : list R) :
  l <> [] -> np_mean l = Val (sum_list l / INR (length l)).
Proof. destruct l; [congruence | reflexivity]. Qed.

Lemma sum_list_nonneg (l : list R) :
  Forall (fun x => 0 <= x) l -> 0 <= sum_list l.
Proof.
  induction 1 as [ | x l Hx Hl IH]; cbn [sum_list fold_right]; [lra | ].
  fold (sum_list l). lra.
Qed.

Lemma mean_nonneg (l : list R) :
  Forall (fun x => 0 <= x) l -> 0 <= sum_list l / INR (length l).
Proof.
  intros H. destruct l as [ | x l].
  - cbn. lra.
  - apply Rmult_le_pos; [now apply sum_list_nonneg | ].
    left. apply Rinv_0_lt_compat. apply lt_0_INR. cbn. lia.
Qed.

Lemma squares_nonneg (mu : R) (l : list R) :
  Forall (fun x => 0 <= x) (map (fun x => (x - mu) ^ 2) l).
Proof.
  apply Forall_forall. intros y Hy. apply in_map_iff in Hy.
  destruct Hy as [x [<- _]]. apply pow2_ge_0.
Qed.

Lemma np_std_val (l : list R) :
  l <> [] ->
  np_std l =
  Val (sqrt (sum_list (map (fun x => (x - sum_list l / INR (length l)) ^ 2) l)
             / INR (length l))).
Proof.
  intros Hl. unfold np_std. rewrite np_mean_val by exact Hl. cbn [bind].
  set (mu := sum_list l / INR (length l)).
  replace (map (fun x => Rabs (x - mu) ^ 2) l) with (map (fun x => (x - mu) ^ 2) l)
    by (apply map_ext; intros x; now rewrite pow2_abs).
  rewrite np_mean_val by (destruct l; [congruence | discriminate]).
  cbn [bind]. rewrite length_map. apply np_sqrt_val.
  rewrite <- (length_map (fun x => (x - mu) ^ 2) l).
  apply mean_nonneg. apply squares_nonneg.
Qed.

Lemma discounted_call_payoff_length (S_T : list R) (K r T : R) :
  length (discounted_call_payoff S_T K r T) = length S_T.
Proof. apply length_map. Qed.

(** A trial returns the mean of the discounted payoffs and their
    population standard deviation over [sqrt N]. *)
Lemma mc_trial_val (S_0 K L T sigma r : R) (N : nat) (Z_s : ndarray2) :
  (1 <= N)%nat -> (1 <= months T)%Z ->
  well_shaped Z_s -> ncols Z_s = Z.to_nat (months T) -> length (rows Z_s) = N ->
  let S_T := map (fun z => knocked_out_value L
                             (spec_path S_0 r sigma (monitoring_times T) z))
                 (rows Z_s) in
  let payoff := discounted_call_payoff S_T K r T in
  option_payoff S_0 r sigma Z_s (monitoring_times T) L = Val S_T /\
  mc_trial S_0 K L T sigma r N Z_s =
  Val (sum_list payoff / INR N, population_std_error payoff).
Proof.
  intros HN Hm HZ Hcols Hrows S_T payoff.
  assert (Hlen : length (monitoring_times T) = Z.to_nat (months T))
    by apply monitoring_times_length.
  assert (Hop : option_payoff S_0 r sigma Z_s (monitoring_times T) L = Val S_T).
  { apply option_payoff_val.
    - intros H. rewrite H in Hlen. cbn in Hlen. lia.
    - apply monitoring_times_nonneg.
    - exact HZ.
    - now rewrite Hlen. }
  split; [exact Hop | ].
  assert (Hpl : length payoff = N).
  { unfold payoff, S_T. now rewrite discounted_call_payoff_length, length_map. }
  assert (Hpne : payoff <> []).
  { intros H. rewrite H in Hpl. cbn in Hpl. lia. }
  assert (HNpos : 0 < INR N) by (apply lt_0_INR; lia).
  unfold mc_trial. rewrite Hop. cbn [bind]. fold payoff.
  rewrite np_mean_val, np_std_val by exact Hpne. cbn [bind].
  rewrite np_sqrt_val by lra. cbn [bind].
  rewrite np_div_val by (apply Rgt_not_eq; now apply sqrt_lt_R0).
  cbn [bind]. unfold population_std_error. rewrite Hpl. reflexivity.
Qed.


Lemma months_one_month : months (1 / 12) = 1%Z.
Proof. rewrite months_floor by lra. apply Zfloor_eq. lra. Qed.

Lemma monitoring_times_one_month : monitoring_times (1 / 12) = [1 / 12].
Proof.
  rewrite monitoring_times_eq, months_one_month. cbn [Z.to_nat Pos.to_nat Pos.iter_op seq map].
  cbn [INR]. reflexivity.
Qed.

Lemma exp_upper (a : R) : 0 <= a < 1 -> exp a <= / (1 - a).
Proof.
  intros Ha.
  assert (H1 : 1 - a <= exp (- a)).
  { generalize (exp_ineq1_le (- a)). lra. }
  rewrite exp_Ropp in H1.
  assert (He : 0 < exp a) by apply exp_pos.
  rewrite <- (Rinv_inv (exp a)).
  apply Rinv_le_contravar; lra.
Qed.

(** The discounted payoffs of [two_paths] under the notebook's market:
    the first path ends above the strike and below the barrier, the second
    below the strike. *)
Lemma two_paths_payoffs :
  exists p : R,
    0 < p /\
    discounted_call_payoff
      (map (fun z => knocked_out_value 150
                       (spec_path 100 (8 / 100) (3 / 10) (monitoring_times (1 / 12)) z))
           (rows two_paths))
      100 (8 / 100) (1 / 12)
    = [p; 0].
Proof.
  rewrite monitoring_times_one_month.
  unfold two_paths, discounted_call_payoff, knocked_out_value, spec_path.
  cbn [rows map map2 row_last row_amax last fold_left].
  set (a := (8 / 100 - (3 / 10) ^ 2 / 2) * (1 / 12) + 3 / 10 * sqrt (1 / 12) * 0).
  set (b := (8 / 100 - (3 / 10) ^ 2 / 2) * (1 / 12) + 3 / 10 * sqrt (1 / 12) * -1).
  assert (Hs : 1 / 10 <= sqrt (1 / 12)).
  { assert (H0 : 0 <= sqrt (1 / 12)) by apply sqrt_pos.
    assert (H2 : sqrt (1 / 12) * sqrt (1 / 12) = 1 / 12) by (apply sqrt_sqrt; lra).
    nra. }
  assert (Ha : 0 < a <= 1 / 100) by (unfold a; lra).
  assert (Hb : b < 0) by (unfold b; lra).
  assert (Hea : 1 < exp a < 3 / 2).
  { split.
    - generalize (exp_ineq1 a). lra.
    - apply Rle_lt_trans with (/ (1 - a)); [apply exp_upper; lra | ].
      apply Rle_lt_trans with (/ (9 / 10)); [ | lra].
      apply Rinv_le_contravar; lra. }
  assert (Heb : 0 < exp b < 1).
  { split; [apply exp_pos | ]. rewrite <- exp_0. apply exp_increasing. exact Hb. }
  assert (Hd : 0 < np_exp (- (8 / 100) * (1 / 12))) by apply exp_pos.
  clearbody a b.
  destruct (Rlt_dec (100 * exp a) 150) as [_ | Hn]; [ | lra].
  exists (np_exp (- (8 / 100) * (1 / 12)) * (100 * exp a - 100)).
  split; [apply Rmult_lt_0_compat; lra | ].
  rewrite (Rmax_left (100 * exp a * 1 - 100) 0) by lra.
  replace (100 * exp a * 1 - 100) with (100 * exp a - 100) by ring.
  f_equal. f_equal.
  destruct (Rlt_dec (100 * exp b) 150) as [_ | _].
  - rewrite Rmax_right by lra. ring.
  - rewrite Rmax_right by lra. ring.
Qed.

Lemma two_paths_trial :
  option_payoff 100 (8 / 100) (3 / 10) two_paths (monitoring_times (1 / 12)) 150
  = Val (map (fun z => knocked_out_value 150
                         (spec_path 100 (8 / 100) (3 / 10) (monitoring_times (1 / 12)) z))
             (rows two_paths)) /\
  exists p : R,
    0 < p /\
    discounted_call_payoff
      (map (fun z => knocked_out_value 150
                       (spec_path 100 (8 / 100) (3 / 10) (monitoring_times (1 / 12)) z))
           (rows two_paths))
      100 (8 / 100) (1 / 12) = [p; 0] /\
    mc_trial 100 100 150 (1 / 12) (3 / 10) (8 / 100) 2 two_paths
    = Val (sum_list [p; 0] / INR 2, population_std_error [p; 0]).
Proof.
  destruct (mc_trial_val 100 100 150 (1 / 12) (3 / 10) (8 / 100) 2 two_paths)
    as [Hop Hmc].
  - lia.
  - rewrite months_one_month. lia.
  - repeat constructor.
  - rewrite months_one_month. reflexivity.
  - reflexivity.
  - split; [exact Hop | ].
    destruct two_paths_payoffs as [p [Hp Heq]].
    exists p. split; [exact Hp | ]. split; [exact Heq | ].
    rewrite Hmc, Heq. reflexivity.
Qed.




(** ** Non-negativity *)

Lemma discounted_call_payoff_nonneg (S_T : list R) (K r T : R) :
  Forall (fun p => 0 <= p) (discounted_call_payoff S_T K r T).
Proof.
  apply Forall_forall. intros p Hp. unfold discounted_call_payoff in Hp.
  apply in_map_iff in Hp. destruct Hp as [s [<- _]].
  apply Rmult_le_pos; [left; apply exp_pos | apply Rmax_r].
Qed.

Lemma np_mean_nonneg (l : list R) (mu : R) :
  Forall (fun x => 0 <= x) l -> np_mean l = Val mu -> 0 <= mu.
Proof.
  intros Hl Hmu.
  assert (Hne : l <> []) by (intros ->; discriminate).
  rewrite np_mean_val in Hmu by exact Hne. injection Hmu as <-.
  now apply mean_nonneg.
Qed.

Lemma mc_trial_mean (S_0 K L T sigma r : R) (N : nat) (Z_s : ndarray2) (est se : R) :
  mc_trial S_0 K L T sigma r N Z_s = Val (est, se) ->
  exists S_T : list R,
    option_payoff S_0 r sigma Z_s (monitoring_times T) L = Val S_T /\
    np_mean (discounted_call_payoff S_T K r T) = Val est.
Proof.
  unfold mc_trial. intros H.
  destruct (option_payoff S_0 r sigma Z_s (monitoring_times T) L) as [S_T | | e];
    cbn [bind] in H; try discriminate.
  exists S_T. split; [reflexivity | ].
  destruct (np_mean (discounted_call_payoff S_T K r T)) as [mu | | e];
    cbn [bind] in H; try discriminate.
  destruct (np_std (discounted_call_payoff S_T K r T)) as [sd | | e];
    cbn [bind] in H; try discriminate.
  destruct (np_sqrt (INR N)) as [q | | e]; cbn [bind] in H; try discriminate.
  destruct (np_div sd q) as [x | | e]; cbn [bind] in H; try discriminate.
  injection H as -> _. reflexivity.
Qed.

(** C7.  Whatever [K], [r], [T] and the terminal values, every discounted
    payoff [exp(-r T) * max(S_T - K, 0)] is [>= 0]; hence every mean
    estimate that a trial returns is [>= 0]. *)
Theorem discounted_payoff_nonneg
  (S_0 K L T sigma r : R) (N : nat) (Z_s : ndarray2) (S_T : list R) :
  Forall (fun p => 0 <= p) (discounted_call_payoff S_T K r T) /\
  (forall est se : R,
     mc_trial S_0 K L T sigma r N Z_s = Val (est, se) -> 0 <= est).
Proof.
  split; [apply discounted_call_payoff_nonneg | ].
  intros est se H. apply mc_trial_mean in H. destruct H as [S [_ Hm]].
  apply (np_mean_nonneg _ _ (discounted_call_payoff_nonneg S K r T) Hm).
Qed.

Lemma discounted_payoff_nonneg_witness :
  Forall (fun p => 0 <= p) (discounted_call_payoff [120; 0] 100 (8 / 100) (1 / 12)) /\
  exists est se : R,
    mc_trial 100 100 150 (1 / 12) (3 / 10) (8 / 100) 2 two_paths = Val (est, se) /\
    0 <= est.
Proof.
  destruct two_paths_trial as [_ [p [_ [_ Hmc]]]].
  destruct (discounted_payoff_nonneg 100 100 150 (1 / 12) (3 / 10) (8 / 100)
              2 two_paths [120; 0]) as [H1 H2].
  split; [exact H1 | ].
  eexists. eexists. split; [exact Hmc | ].
  apply (H2 _ _ Hmc).
Defined.

(** ** Parameter checks *)




(** ** Reproducibility *)



Section SweepRuns.

Variable rng : Type.
Variable np_random_seed : rng -> Z -> rng.
Variable norm_rvs : rng -> nat -> nat -> ndarray2 * rng.
Variables S_0 K L T sigma r : R.

(** [norm.rvs(size=[n, m])] returns an array of that shape. *)
Hypothesis norm_rvs_shape :
  forall (g : rng) (n m : nat),
    well_shaped (fst (norm_rvs g n m)) /\
    ncols (fst (norm_rvs g n m)) = m /\
    length (rows (fst (norm_rvs g n m))) = n.

Hypothesis one_month : (1 <= months T)%Z.




End SweepRuns.





(** * Further properties of the code *)

(** ** The closed-form price: where it is defined *)

Lemma same_sign_ratio (x y : R) : 0 < y * x -> 0 < x / y.
Proof.
  intros H.
  assert (Hy : y <> 0) by (intros ->; lra).
  replace (x / y) with (y * x * (/ y * / y)) by (field; exact Hy).
  apply Rmult_lt_0_compat; [exact H | ].
  assert (H0 : / y <> 0) by now apply Rinv_neq_0_compat.
  nra.
Qed.

Lemma ratio_same_sign (x y : R) : y <> 0 -> 0 < x / y -> 0 < y * x.
Proof.
  intros Hy H.
  replace (y * x) with (x / y * (y * y)) by (field; exact Hy).
  apply Rmult_lt_0_compat; [exact H | nra].
Qed.

(** The pricer's value when [S_0], [K] and [L] share a sign. *)
Lemma analytical_callprice_val_signed (S_0 K L T sigma r : R) :
  0 < K * S_0 -> 0 < L * S_0 -> 0 < T -> sigma <> 0 ->
  analytical_callprice S_0 K L T sigma r = Val (code_price S_0 K L T sigma r).
Proof.
  intros HK HL HT Hsig.
  assert (K0 : K <> 0) by (intros ->; lra).
  assert (L0 : L <> 0) by (intros ->; lra).
  assert (S0 : S_0 <> 0) by (intros ->; lra).
  assert (KS0 : K * S_0 <> 0) by lra.
  assert (HSK : 0 < S_0 / K) by now apply same_sign_ratio.
  assert (HSL : 0 < S_0 / L) by now apply same_sign_ratio.
  assert (HLS : 0 < L / S_0) by (apply same_sign_ratio; lra).
  assert (HLL : 0 < L ^ 2 / (K * S_0)).
  { apply Rdiv_lt_0_compat; [ | exact HK]. simpl. nra. }
  assert (Hs2 : sigma ^ 2 <> 0) by now apply pow_nonzero.
  unfold analytical_callprice, p1, p2, p3, p4.
  rewrite !(py_div_val S_0 K), !(py_div_val S_0 L), !(py_div_val L S_0),
    !(py_div_val (L ^ 2) (K * S_0)) by assumption.
  rewrite !py_div_val by exact Hs2. cbn [bind].
  rewrite !delta_plus_val, !delta_minus_val by assumption. cbn [bind].
  rewrite !py_pow_val by exact HSL. cbn [bind].
  apply f_equal. unfold code_price, four_term, np_exp. ring.
Qed.


(** X2.  The three outcomes of [delta_plus] and [delta_minus]: a
    [ValueError] from [math.log] exactly when [s <= 0]; otherwise an [inf]
    or [nan] from numpy exactly when [tau <= 0] or [sigma = 0]; otherwise a
    number. *)
Theorem delta_outcomes (tau s sigma r : R) :
  (s <= 0 ->
     delta_plus tau s sigma r = Raise ValueError /\
     delta_minus tau s sigma r = Raise ValueError) /\
  (0 < s -> tau <= 0 \/ sigma = 0 ->
     delta_plus tau s sigma r = NonFinite /\
     delta_minus tau s sigma r = NonFinite) /\
  (0 < s -> 0 < tau -> sigma <> 0 ->
     delta_plus tau s sigma r = Val (d_plus tau s sigma r) /\
     delta_minus tau s sigma r = Val (d_minus tau s sigma r)).
Proof.
  split; [ | split].
  - intros Hs. unfold delta_plus, delta_minus, math_log.
    destruct (Rlt_dec 0 s) as [H | _]; [lra | ]. split; reflexivity.
  - intros Hs Hbad. unfold delta_plus, delta_minus.
    rewrite math_log_val by exact Hs. cbn [bind]. unfold np_sqrt.
    destruct (Rle_dec 0 tau) as [Ht | _]; [ | split; reflexivity].
    cbn [bind]. unfold np_div.
    assert (Hden : sigma * sqrt tau = 0).
    { destruct Hbad as [Ht' | ->]; [ | ring].
      replace tau with 0 by lra. rewrite sqrt_0. ring. }
    destruct (Req_dec_T (sigma * sqrt tau) 0) as [_ | H]; [ | contradiction].
    split; reflexivity.
  - intros Hs Ht Hsig.
    split; [apply delta_plus_val | apply delta_minus_val]; assumption.
Qed.

Lemma delta_outcomes_witness :
  (delta_plus 1 (- 2) (3 / 10) (8 / 100) = Raise ValueError /\
   delta_minus 1 (- 2) (3 / 10) (8 / 100) = Raise ValueError) /\
  (delta_plus 0 2 (3 / 10) (8 / 100) = NonFinite /\
   delta_minus 0 2 (3 / 10) (8 / 100) = NonFinite) /\
  (delta_plus 1 2 (3 / 10) (8 / 100) = Val (d_plus 1 2 (3 / 10) (8 / 100)) /\
   delta_minus 1 2 (3 / 10) (8 / 100) = Val (d_minus 1 2 (3 / 10) (8 / 100))).
Proof.
  split; [ | split].
  - apply (proj1 (delta_outcomes 1 (- 2) (3 / 10) (8 / 100))). lra.
  - apply (proj1 (proj2 (delta_outcomes 0 2 (3 / 10) (8 / 100)))); [lra | left; lra].
  - apply (proj2 (proj2 (delta_outcomes 1 2 (3 / 10) (8 / 100)))); lra.
Defined.

(** X3.  The exceptions of the pricer, in the order the code meets them:
    a zero strike divides by zero; a strike of the other sign than the
    spot (or a zero spot) makes [math.log] fail; then the same for the
    barrier. *)
Theorem analytical_callprice_exceptions (S_0 K L T sigma r : R) :
  (K = 0 -> analytical_callprice S_0 K L T sigma r = Raise ZeroDivisionError) /\
  (K <> 0 -> K * S_0 <= 0 ->
     analytical_callprice S_0 K L T sigma r = Raise ValueError) /\
  (0 < K * S_0 -> 0 < T -> sigma <> 0 -> L = 0 ->
     analytical_callprice S_0 K L T sigma r = Raise ZeroDivisionError) /\
  (0 < K * S_0 -> 0 < T -> sigma <> 0 -> L <> 0 -> L * S_0 <= 0 ->
     analytical_callprice S_0 K L T sigma r = Raise ValueError).
Proof.
  assert (Hneg : forall x y : R, y <> 0 -> y * x <= 0 -> ~ 0 < x / y).
  { intros x y Hy Hyx Hpos. apply (ratio_same_sign x y Hy) in Hpos. lra. }
  repeat split.
  - intros ->. unfold analytical_callprice, p1, py_div.
    destruct (Req_dec_T 0 0) as [_ | H]; [reflexivity | contradiction].
  - intros K0 HKS. unfold analytical_callprice, p1.
    rewrite py_div_val by exact K0. cbn [bind].
    unfold delta_plus, math_log.
    destruct (Rlt_dec 0 (S_0 / K)) as [H | _]; [ | reflexivity].
    now apply Hneg in H.
  - intros HKS HT Hsig ->. unfold analytical_callprice, p1.
    assert (K0 : K <> 0) by (intros ->; lra).
    rewrite py_div_val by exact K0. cbn [bind].
    rewrite delta_plus_val by (try apply same_sign_ratio; assumption).
    cbn [bind]. unfold py_div.
    destruct (Req_dec_T 0 0) as [_ | H]; [reflexivity | contradiction].
  - intros HKS HT Hsig L0 HLS. unfold analytical_callprice, p1.
    assert (K0 : K <> 0) by (intros ->; lra).
    rewrite py_div_val by exact K0. cbn [bind].
    rewrite delta_plus_val by (try apply same_sign_ratio; assumption).
    cbn [bind]. rewrite py_div_val by exact L0. cbn [bind].
    unfold delta_plus, math_log.
    destruct (Rlt_dec 0 (S_0 / L)) as [H | _]; [ | reflexivity].
    now apply Hneg in H.
Qed.

Lemma analytical_callprice_exceptions_witness :
  analytical_callprice 100 0 150 1 (3 / 10) (8 / 100) = Raise ZeroDivisionError /\
  analytical_callprice 100 (- 100) 150 1 (3 / 10) (8 / 100) = Raise ValueError /\
  analytical_callprice 100 100 0 1 (3 / 10) (8 / 100) = Raise ZeroDivisionError /\
  analytical_callprice 100 100 (- 150) 1 (3 / 10) (8 / 100) = Raise ValueError.
Proof.
  repeat split.
  - apply (proj1 (analytical_callprice_exceptions 100 0 150 1 (3 / 10) (8 / 100))).
    reflexivity.
  - apply (proj1 (proj2
             (analytical_callprice_exceptions 100 (- 100) 150 1 (3 / 10) (8 / 100))));
      lra.
  - apply (proj1 (proj2 (proj2
             (analytical_callprice_exceptions 100 100 0 1 (3 / 10) (8 / 100)))));
      lra.
  - apply (proj2 (proj2 (proj2
             (analytical_callprice_exceptions 100 100 (- 150) 1 (3 / 10) (8 / 100)))));
      lra.
Defined.

(** ** The closed-form price: identities *)

(** X4.  A strike at the barrier makes the price exactly [0]. *)
Theorem analytical_callprice_strike_at_barrier (S_0 L T sigma r : R) :
  0 < S_0 -> 0 < L -> 0 < T -> sigma <> 0 ->
  analytical_callprice S_0 L L T sigma r = Val 0.
Proof.
  intros HS HL HT Hsig.
  rewrite analytical_callprice_val by assumption.
  apply f_equal. unfold code_price, four_term.
  replace (L ^ 2 / (L * S_0)) with (L / S_0) by (field; lra).
  ring.
Qed.

Lemma analytical_callprice_strike_at_barrier_witness :
  analytical_callprice 100 150 150 1 (3 / 10) (8 / 100) = Val 0.
Proof.
  apply (analytical_callprice_strike_at_barrier 100 150 1 (3 / 10) (8 / 100)); lra.
Defined.

(** X5.  The value returned is the reflection formula: the two-term value
    at the spot minus [(S_0/L)^(1 - 2r/sigma^2)] times the two-term value
    at the mirrored spot [L^2/S_0]. *)
Theorem analytical_callprice_reflection (S_0 K L T sigma r : R) :
  0 < S_0 -> 0 < K -> 0 < L -> 0 < T -> sigma <> 0 ->
  analytical_callprice S_0 K L T sigma r =
  Val (two_term S_0 K L T sigma r
       - Rpower (S_0 / L) (1 - 2 * r / sigma ^ 2)
         * two_term (L ^ 2 / S_0) K L T sigma r).
Proof.
  intros HS HK HL HT Hsig.
  rewrite analytical_callprice_val by assumption.
  apply f_equal. now apply code_price_reflection.
Qed.

Lemma analytical_callprice_reflection_witness :
  analytical_callprice 100 100 150 1 (3 / 10) (8 / 100) =
  Val (two_term 100 100 150 1 (3 / 10) (8 / 100)
       - Rpower (100 / 150) (1 - 2 * (8 / 100) / (3 / 10) ^ 2)
         * two_term (150 ^ 2 / 100) 100 150 1 (3 / 10) (8 / 100)).
Proof.
  apply (analytical_callprice_reflection 100 100 150 1 (3 / 10) (8 / 100)); lra.
Defined.

(** X6.  The price does not depend on the unit of time: with the maturity
    multiplied by [c > 0], the rate divided by [c] and the volatility
    divided by [sqrt c], the same value is returned. *)
Theorem analytical_callprice_time_unit (c S_0 K L T sigma r : R) :
  0 < c -> 0 < S_0 -> 0 < K -> 0 < L -> 0 < T -> sigma <> 0 ->
  analytical_callprice S_0 K L (c * T) (sigma / sqrt c) (r / c) =
  analytical_callprice S_0 K L T sigma r.
Proof.
  intros Hc HS HK HL HT Hsig.
  assert (Hq : 0 < sqrt c) by now apply sqrt_lt_R0.
  assert (Hqq : sqrt c * sqrt c = c) by (apply sqrt_sqrt; lra).
  assert (Hsig' : sigma / sqrt c <> 0).
  { unfold Rdiv. apply Rmult_integral_contrapositive_currified; [exact Hsig | ].
    apply Rinv_neq_0_compat. lra. }
  rewrite !analytical_callprice_val by (assumption || nra).
  apply f_equal.
  assert (Hs2 : (sigma / sqrt c) ^ 2 = sigma ^ 2 / c).
  { rewrite <- Hqq at 2. field. lra. }
  assert (Hden : sigma / sqrt c * sqrt (c * T) = sigma * sqrt T).
  { rewrite sqrt_mult by lra. field. lra. }
  assert (Hdp : forall s, d_plus (c * T) s (sigma / sqrt c) (r / c) = d_plus T s sigma r).
  { intros s. unfold d_plus. rewrite Hden, Hs2. f_equal. field. lra. }
  assert (Hdm : forall s, d_minus (c * T) s (sigma / sqrt c) (r / c) = d_minus T s sigma r).
  { intros s. unfold d_minus. rewrite Hden, Hs2. f_equal. field. lra. }
  assert (Hs20 : sigma ^ 2 <> 0) by now apply pow_nonzero.
  unfold code_price, four_term. rewrite !Hdp, !Hdm, Hs2.
  replace (- (r / c) * (c * T)) with (- r * T) by (field; lra).
  replace (- 2 * (r / c) / (sigma ^ 2 / c)) with (- 2 * r / sigma ^ 2)
    by (field; split; lra).
  replace (1 - 2 * (r / c) / (sigma ^ 2 / c)) with (1 - 2 * r / sigma ^ 2)
    by (field; split; lra).
  reflexivity.
Qed.

Lemma analytical_callprice_time_unit_witness :
  analytical_callprice 100 100 150 (4 * 1) (3 / 10 / sqrt 4) (8 / 100 / 4) =
  analytical_callprice 100 100 150 1 (3 / 10) (8 / 100).
Proof.
  apply (analytical_callprice_time_unit 4 100 100 150 1 (3 / 10) (8 / 100)); lra.
Defined.

(** ** Symmetry of [norm_cdf] *)

Lemma continuity_pt_bound (f : R -> R) (x : R) :
  continuity_pt f x ->
  forall eps : R, 0 < eps ->
  exists alp : R,
    0 < alp /\ forall y : R, Rabs (y - x) < alp -> Rabs (f y - f x) < eps.
Proof.
  intros Hc eps Heps.
  destruct (Hc eps Heps) as [alp [Halp H]].
  exists alp. split; [exact Halp | ].
  intros y Hy. destruct (Req_dec x y) as [<- | Hne].
  - replace (f x - f x) with 0 by ring. rewrite Rabs_R0. exact Heps.
  - apply (H y). split; [split; [exact I | exact Hne] | exact Hy].
Qed.

Lemma gauss_int_increment (x h eps : R) :
  0 < eps ->
  (forall y : R, Rabs (y - x) < Rabs h + Rabs h -> Rabs (gauss y - gauss x) < eps) ->
  Rabs (gauss_int x (x + h) - gauss x * h) <= eps * Rabs h.
Proof.
  intros Heps Hc.
  assert (Hy : forall y, Rabs (y - x) <= Rabs h -> h <> 0 ->
                         gauss x - eps <= gauss y <= gauss x + eps).
  { intros y Hyx Hh.
    assert (H0 : 0 < Rabs h) by now apply Rabs_pos_lt.
    assert (H1 : Rabs (gauss y - gauss x) < eps) by (apply Hc; lra).
    apply Rabs_def2 in H1. lra. }
  destruct (Rtotal_order h 0) as [Hneg | [-> | Hpos]].
  - assert (Hch : gauss_int x (x + h) = - gauss_int (x + h) x).
    { generalize (gauss_int_chasles x (x + h) x). rewrite gauss_int_same. lra. }
    rewrite Hch, (Rabs_left h) by exact Hneg.
    assert (Hlo : (gauss x - eps) * (x - (x + h)) <= gauss_int (x + h) x).
    { apply gauss_int_lower; [lra | ]. intros y Hyr. apply Hy; [ | lra].
      rewrite (Rabs_left h), Rabs_left by lra. lra. }
    assert (Hhi : gauss_int (x + h) x <= (gauss x + eps) * (x - (x + h))).
    { apply gauss_int_upper; [lra | ]. intros y Hyr. apply Hy; [ | lra].
      rewrite (Rabs_left h), Rabs_left by lra. lra. }
    apply Rabs_le. split; nra.
  - rewrite Rplus_0_r, gauss_int_same, Rabs_R0.
    replace (0 - gauss x * 0) with 0 by ring. rewrite Rabs_R0. lra.
  - rewrite (Rabs_right h) by lra.
    assert (Hlo : (gauss x - eps) * (x + h - x) <= gauss_int x (x + h)).
    { apply gauss_int_lower; [lra | ]. intros y Hyr. apply Hy; [ | lra].
      rewrite (Rabs_right h), Rabs_right by lra. lra. }
    assert (Hhi : gauss_int x (x + h) <= (gauss x + eps) * (x + h - x)).
    { apply gauss_int_upper; [lra | ]. intros y Hyr. apply Hy; [ | lra].
      rewrite (Rabs_right h), Rabs_right by lra. lra. }
    apply Rabs_le. split; nra.
Qed.

(** The fundamental theorem of calculus for [gauss_int 0]. *)
Lemma gauss_int_derivative (x : R) :
  derivable_pt_lim (fun y => gauss_int 0 y) x (gauss x).
Proof.
  intros eps Heps.
  assert (He2 : 0 < eps / 2) by lra.
  destruct (continuity_pt_bound gauss x (gauss_continuity x) (eps / 2) He2)
    as [alp [Halp Hc]].
  assert (Ha2 : 0 < alp / 2) by lra.
  exists (mkposreal (alp / 2) Ha2). cbn [pos]. intros h Hh Hhd.
  assert (Hinc : Rabs (gauss_int x (x + h) - gauss x * h) <= eps / 2 * Rabs h).
  { apply gauss_int_increment; [exact He2 | ]. intros y Hy. apply Hc. lra. }
  assert (Hpos : 0 < Rabs h) by now apply Rabs_pos_lt.
  replace ((gauss_int 0 (x + h) - gauss_int 0 x) / h - gauss x)
    with ((gauss_int x (x + h) - gauss x * h) / h).
  - unfold Rdiv. rewrite Rabs_mult, Rabs_inv.
    apply Rle_lt_trans with (eps / 2 * Rabs h * / Rabs h).
    + apply Rmult_le_compat_r; [ | exact Hinc].
      left. now apply Rinv_0_lt_compat.
    + replace (eps / 2 * Rabs h * / Rabs h) with (eps / 2) by (field; lra). lra.
  - rewrite <- (gauss_int_chasles 0 x (x + h)). field. exact Hh.
Qed.

Lemma gauss_even (t : R) : gauss (- t) = gauss t.
Proof. unfold gauss. apply f_equal. field. Qed.

Lemma gauss_int_mirror_derivative (c : R) :
  derivable_pt_lim (fun y => gauss_int 0 y + gauss_int 0 (- y)) c 0.
Proof.
  assert (Hd : derivable_pt_lim
                 ((fun y => gauss_int 0 y) + comp (fun y => gauss_int 0 y) (- id))%F
                 c (gauss c + gauss (- c) * - 1)).
  { apply derivable_pt_lim_plus.
    - apply gauss_int_derivative.
    - apply derivable_pt_lim_comp.
      + apply derivable_pt_lim_opp. apply derivable_pt_lim_id.
      + apply gauss_int_derivative. }
  rewrite gauss_even in Hd.
  replace (gauss c + gauss c * - 1) with 0 in Hd by ring.
  exact Hd.
Qed.

Lemma gauss_int_odd (x : R) : gauss_int 0 (- x) = - gauss_int 0 x.
Proof.
  set (H := fun y => gauss_int 0 y + gauss_int 0 (- y)).
  assert (Hconst : forall a b : R, a < b -> H b = H a).
  { intros a b Hab.
    destruct (MVT_cor2 H (fun _ => 0) a b Hab) as [c [Hc _]].
    - intros c _. apply gauss_int_mirror_derivative.
    - lra. }
  assert (H0 : H 0 = 0).
  { unfold H. rewrite Ropp_0, gauss_int_same. ring. }
  assert (Hx : H x = 0).
  { destruct (Rtotal_order x 0) as [Hlt | [-> | Hgt]].
    - rewrite <- (Hconst x 0 Hlt). exact H0.
    - exact H0.
    - rewrite (Hconst 0 x Hgt). exact H0. }
  unfold H in Hx. lra.
Qed.

Lemma norm_cdf_symmetry (x : R) : norm_cdf (- x) = 1 - norm_cdf x.
Proof.
  unfold norm_cdf. rewrite gauss_int_odd.
  generalize sqrt_2PI_pos. intros Hq. field. lra.
Qed.

Lemma d_plus_opp_sigma (T s sigma r : R) :
  sigma <> 0 -> 0 < T -> d_plus T s (- sigma) r = - d_plus T s sigma r.
Proof.
  intros Hsig HT. unfold d_plus.
  assert (Hq : 0 < sqrt T) by now apply sqrt_lt_R0.
  replace ((- sigma) ^ 2) with (sigma ^ 2) by ring. field. lra.
Qed.

Lemma d_minus_opp_sigma (T s sigma r : R) :
  sigma <> 0 -> 0 < T -> d_minus T s (- sigma) r = - d_minus T s sigma r.
Proof.
  intros Hsig HT. unfold d_minus.
  assert (Hq : 0 < sqrt T) by now apply sqrt_lt_R0.
  replace ((- sigma) ^ 2) with (sigma ^ 2) by ring. field. lra.
Qed.

(** X7.  Nothing rejects a negative volatility: changing the sign of
    [sigma] changes the sign of the price returned. *)
Theorem analytical_callprice_opp_sigma (S_0 K L T sigma r : R) :
  0 < S_0 -> 0 < K -> 0 < L -> 0 < T -> sigma <> 0 ->
  exists v : R,
    analytical_callprice S_0 K L T sigma r = Val v /\
    analytical_callprice S_0 K L T (- sigma) r = Val (- v).
Proof.
  intros HS HK HL HT Hsig.
  exists (code_price S_0 K L T sigma r).
  split; [now apply analytical_callprice_val | ].
  rewrite analytical_callprice_val by (assumption || lra).
  apply f_equal. unfold code_price, four_term.
  rewrite !d_plus_opp_sigma, !d_minus_opp_sigma by assumption.
  rewrite !norm_cdf_symmetry.
  replace ((- sigma) ^ 2) with (sigma ^ 2) by ring. ring.
Qed.

Lemma analytical_callprice_opp_sigma_witness :
  exists v : R,
    analytical_callprice 100 100 150 1 (3 / 10) (8 / 100) = Val v /\
    analytical_callprice 100 100 150 1 (- (3 / 10)) (8 / 100) = Val (- v).
Proof.
  apply (analytical_callprice_opp_sigma 100 100 150 1 (3 / 10) (8 / 100)); lra.
Defined.

(** X8.  The scaling of [S_0], [K] and [L] works for a negative factor as
    well: three negative levels are accepted, and the price returned is the
    price of their opposites with the sign changed. *)
Theorem analytical_callprice_homogeneous_nonzero (c S_0 K L T sigma r : R) :
  c <> 0 -> 0 < S_0 -> 0 < K -> 0 < L -> 0 < T -> sigma <> 0 ->
  exists v : R,
    analytical_callprice S_0 K L T sigma r = Val v /\
    analytical_callprice (c * S_0) (c * K) (c * L) T sigma r = Val (c * v).
Proof.
  intros Hc HS HK HL HT Hsig.
  exists (code_price S_0 K L T sigma r).
  split; [now apply analytical_callprice_val | ].
  assert (Hcc : 0 < c * c) by nra.
  rewrite analytical_callprice_val_signed; try assumption.
  - apply f_equal. unfold code_price, four_term.
    replace (c * S_0 / (c * K)) with (S_0 / K) by (field; lra).
    replace (c * S_0 / (c * L)) with (S_0 / L) by (field; lra).
    replace (c * L / (c * S_0)) with (L / S_0) by (field; lra).
    replace ((c * L) ^ 2 / (c * K * (c * S_0))) with (L ^ 2 / (K * S_0))
      by (field; lra).
    ring.
  - replace (c * K * (c * S_0)) with (c * c * (K * S_0)) by ring.
    apply Rmult_lt_0_compat; nra.
  - replace (c * L * (c * S_0)) with (c * c * (L * S_0)) by ring.
    apply Rmult_lt_0_compat; nra.
Qed.

Lemma analytical_callprice_homogeneous_nonzero_witness :
  exists v : R,
    analytical_callprice 100 100 150 1 (3 / 10) (8 / 100) = Val v /\
    analytical_callprice (- 1 * 100) (- 1 * 100) (- 1 * 150) 1 (3 / 10) (8 / 100)
    = Val (- 1 * v).
Proof.
  apply (analytical_callprice_homogeneous_nonzero (- 1) 100 100 150 1
           (3 / 10) (8 / 100)); lra.
Defined.

(** ** The monitoring times *)







(** ** The path simulator: errors *)

Lemma option_payoff_empty_grid (S_0 r sigma : R) (Z : ndarray2) (L : R) :
  option_payoff S_0 r sigma Z [] L = Raise ValueError.
Proof.
  unfold option_payoff. cbn [np_sqrt_vec bind length]. unfold broadcast_len.
  destruct (ncols Z) as [ | [ | n]]; reflexivity.
Qed.

(** X10.  [option_payoff] raises [ValueError] on an empty grid, whatever
    the array of draws, and on a grid (of times that are not negative) whose
    length differs from the column count when neither is [1]. *)
Theorem option_payoff_errors (S_0 r sigma : R) (Z : ndarray2) (t : list R) (L : R) :
  (t = [] -> option_payoff S_0 r sigma Z t L = Raise ValueError) /\
  (Forall (fun ti => 0 <= ti) t ->
   length t <> ncols Z -> length t <> 1%nat -> ncols Z <> 1%nat ->
   option_payoff S_0 r sigma Z t L = Raise ValueError).
Proof.
  split.
  - intros ->. apply option_payoff_empty_grid.
  - intros Hpos Hne Ht1 Hz1. unfold option_payoff.
    rewrite np_sqrt_vec_val by exact Hpos. cbn [bind].
    unfold broadcast_len.
    destruct (Nat.eqb_spec (length t) (ncols Z)) as [ | _]; [contradiction | ].
    destruct (Nat.eqb_spec (length t) 1) as [ | _]; [contradiction | ].
    destruct (Nat.eqb_spec (ncols Z) 1) as [ | _]; [contradiction | ].
    reflexivity.
Qed.

Lemma option_payoff_errors_witness :
  option_payoff 100 (8 / 100) (3 / 10) two_paths [] 150 = Raise ValueError /\
  option_payoff 100 (8 / 100) (3 / 10) (mk_ndarray2 3 [[0; 0; 0]]) [1 / 12; 2 / 12] 150
  = Raise ValueError.
Proof.
  split.
  - apply (proj1 (option_payoff_errors 100 (8 / 100) (3 / 10) two_paths [] 150)).
    reflexivity.
  - apply (proj2 (option_payoff_errors 100 (8 / 100) (3 / 10)
                    (mk_ndarray2 3 [[0; 0; 0]]) [1 / 12; 2 / 12] 150)).
    + repeat constructor; lra.
    + cbn. lia.
    + cbn. lia.
    + cbn. lia.
Defined.

(** ** The sweep: maturities under one month *)


Section SweepDomain.

Variable rng : Type.
Variable np_random_seed : rng -> Z -> rng.
Variable norm_rvs : rng -> nat -> nat -> ndarray2 * rng.
Variables S_0 K L T sigma r : R.


End SweepDomain.



(** ** The path simulator: the values it returns *)

Lemma spec_path_positive (S_0 r sigma : R) (t z : list R) :
  0 < S_0 -> Forall (fun p => 0 < p) (spec_path S_0 r sigma t z).
Proof.
  intros HS. unfold spec_path. revert z.
  induction t as [ | ti t IH]; intros [ | zi z]; cbn [map2]; try constructor.
  - apply Rmult_lt_0_compat; [exact HS | apply exp_pos].
  - apply IH.
Qed.


Lemma last_in_list (l : list R) (d : R) : l <> [] -> In (last l d) l.
Proof.
  induction l as [ | x l IH]; [congruence | intros _].
  destruct l as [ | y l]; [left; reflexivity | ].
  right. apply IH. discriminate.
Qed.

Lemma knocked_out_value_cases (L : R) (S : list R) :
  (row_amax S < L /\ knocked_out_value L S = row_last S) \/
  (L <= row_amax S /\ knocked_out_value L S = 0).
Proof.
  unfold knocked_out_value.
  destruct (Rlt_dec (row_amax S) L) as [H | H].
  - left. split; [exact H | ring].
  - right. split; [lra | ring].
Qed.

Lemma knocked_out_value_range (L : R) (S : list R) :
  S <> [] -> Forall (fun p => 0 < p) S ->
  knocked_out_value L S = 0 \/ 0 < knocked_out_value L S < L.
Proof.
  intros Hne Hpos.
  destruct (knocked_out_value_cases L S) as [[Hlt ->] | [_ ->]]; [ | now left].
  right. apply (row_amax_lt S L Hne) in Hlt.
  rewrite Forall_forall in Hpos, Hlt.
  assert (Hin : In (row_last S) S) by now apply last_in_list.
  split; [now apply Hpos | now apply Hlt].
Qed.

(** X12.  With a positive spot, every value [option_payoff] returns is
    either [0] or a price strictly between [0] and [L]; so with a barrier
    [L <= 0] every path is knocked out. *)
Theorem option_payoff_range (S_0 r sigma : R) (Z : ndarray2) (t : list R) (L : R) :
  0 < S_0 ->
  t <> [] -> Forall (fun ti => 0 <= ti) t ->
  well_shaped Z -> ncols Z = length t ->
  exists out : list R,
    option_payoff S_0 r sigma Z t L = Val out /\
    Forall (fun v => v = 0 \/ 0 < v < L) out /\
    (L <= 0 -> Forall (fun v => v = 0) out).
Proof.
  intros HS Ht Hpos HZ Hcols.
  eexists. split; [now apply option_payoff_val | ].
  assert (Hall : Forall (fun v => v = 0 \/ 0 < v < L)
                   (map (fun z => knocked_out_value L (spec_path S_0 r sigma t z))
                        (rows Z))).
  { apply Forall_forall. intros v Hv. apply in_map_iff in Hv.
    destruct Hv as [z [<- Hz]]. apply knocked_out_value_range.
    - apply spec_path_nonempty; [exact Ht | ].
      unfold well_shaped in HZ. rewrite Forall_forall in HZ.
      rewrite <- Hcols. now apply HZ.
    - now apply spec_path_positive. }
  split; [exact Hall | ].
  intros HL. rewrite Forall_forall in Hall. apply Forall_forall.
  intros v Hv. destruct (Hall v Hv) as [H0 | H1]; [exact H0 | lra].
Qed.

Lemma option_payoff_range_witness :
  exists out : list R,
    option_payoff 100 (8 / 100) (3 / 10) two_paths [1 / 12] 150 = Val out /\
    Forall (fun v => v = 0 \/ 0 < v < 150) out /\
    (150 <= 0 -> Forall (fun v => v = 0) out).
Proof.
  apply (option_payoff_range 100 (8 / 100) (3 / 10) two_paths [1 / 12] 150).
  - lra.
  - discriminate.
  - repeat constructor. lra.
  - repeat constructor.
  - reflexivity.
Defined.

(** ** The Monte Carlo estimator: bounds *)














(** ** The Monte Carlo estimator: the price level *)










(** ** The Monte Carlo estimator: small samples and knocked-out paths *)



(** X18.  What a knocked-out path contributes: its discounted payoff is
    exactly [0] when the strike is not negative, but [exp(-r T) * (-K) > 0]
    when the strike is negative. *)
Theorem knocked_out_path_payoff
  (S_0 K r sigma T : R) (Z : ndarray2) (t : list R) (L : R) (j : nat) (z : list R) :
  t <> [] -> Forall (fun ti => 0 <= ti) t ->
  well_shaped Z -> ncols Z = length t ->
  nth_error (rows Z) j = Some z ->
  Exists (fun p => L <= p) (spec_path S_0 r sigma t z) ->
  exists out : list R,
    option_payoff S_0 r sigma Z t L = Val out /\
    (0 <= K -> nth_error (discounted_call_payoff out K r T) j = Some 0) /\
    (K < 0 ->
       nth_error (discounted_call_payoff out K r T) j = Some (exp (- r * T) * - K) /\
       0 < exp (- r * T) * - K).
Proof.
  intros Ht Hpos HZ Hcols Hj Hex.
  eexists. split; [now apply option_payoff_val | ].
  assert (Hz : length z = length t).
  { unfold well_shaped in HZ. rewrite Forall_forall in HZ.
    rewrite <- Hcols. apply HZ. eapply nth_error_In. exact Hj. }
  assert (Hko : knocked_out_value L (spec_path S_0 r sigma t z) = 0).
  { destruct (knocked_out_value_cases L (spec_path S_0 r sigma t z))
      as [[Hlt _] | [_ H0]]; [ | exact H0].
    apply row_amax_lt in Hlt; [ | now apply spec_path_nonempty].
    rewrite Forall_forall in Hlt. apply Exists_exists in Hex.
    destruct Hex as [p [Hin Hp]]. apply Hlt in Hin. lra. }
  unfold discounted_call_payoff. rewrite !nth_error_map, Hj. cbn [option_map].
  rewrite Hko.
  assert (He : 0 < exp (- r * T)) by apply exp_pos.
  unfold np_exp. split.
  - intros HK. rewrite Rmax_right by lra. f_equal. ring.
  - intros HK. rewrite Rmax_left by lra. split.
    + f_equal. ring.
    + apply Rmult_lt_0_compat; lra.
Qed.

Lemma knocked_out_path_payoff_witness :
  (exists out : list R,
     option_payoff 100 (8 / 100) (3 / 10) two_paths [1 / 12] 50 = Val out /\
     nth_error (discounted_call_payoff out 100 (8 / 100) (1 / 12)) 0 = Some 0) /\
  (exists out : list R,
     option_payoff 100 (8 / 100) (3 / 10) two_paths [1 / 12] 50 = Val out /\
     nth_error (discounted_call_payoff out (- 10) (8 / 100) (1 / 12)) 0
     = Some (exp (- (8 / 100) * (1 / 12)) * - - 10) /\
     0 < exp (- (8 / 100) * (1 / 12)) * - - 10).
Proof.
  assert (Hex : Exists (fun p => 50 <= p)
                  (spec_path 100 (8 / 100) (3 / 10) [1 / 12] [0])).
  { unfold spec_path. cbn [map2]. constructor.
    set (a := (8 / 100 - (3 / 10) ^ 2 / 2) * (1 / 12) + 3 / 10 * sqrt (1 / 12) * 0).
    assert (Ha : 0 <= a) by (unfold a; lra).
    generalize (exp_ineq1_le a). lra. }
  split.
  - destruct (knocked_out_path_payoff 100 100 (8 / 100) (3 / 10) (1 / 12)
                two_paths [1 / 12] 50 0 [0]) as [out [Hout [H0 _]]].
    + discriminate.
    + repeat constructor. lra.
    + repeat constructor.
    + reflexivity.
    + reflexivity.
    + exact Hex.
    + exists out. split; [exact Hout | ]. apply H0. lra.
  - destruct (knocked_out_path_payoff 100 (- 10) (8 / 100) (3 / 10) (1 / 12)
                two_paths [1 / 12] 50 0 [0]) as [out [Hout [_ H1]]].
    + discriminate.
    + repeat constructor. lra.
    + repeat constructor.
    + reflexivity.
    + reflexivity.
    + exact Hex.
    + exists out. split; [exact Hout | ]. apply H1. lra.
Defined.

(** ** The sweep: which draws each estimate comes from *)

Section SweepTrace.

Variable rng : Type.
Variable np_random_seed : rng -> Z -> rng.
Variable norm_rvs : rng -> nat -> nat -> ndarray2 * rng.
Variables S_0 K L T sigma r : R.

Hypothesis norm_rvs_shape :
  forall (g : rng) (n m : nat),
    well_shaped (fst (norm_rvs g n m)) /\
    ncols (fst (norm_rvs g n m)) = m /\
    length (rows (fst (norm_rvs g n m))) = n.

Hypothesis one_month : (1 <= months T)%Z.



End SweepTrace.



(** ** The closed-form price on both sides of the barrier *)

Lemma Rpower_inv_base (x e : R) : 0 < x -> Rpower (/ x) e * Rpower x e = 1.
Proof.
  intros Hx. unfold Rpower. rewrite ln_Rinv by exact Hx.
  rewrite <- exp_plus. replace (e * - ln x + e * ln x) with 0 by ring.
  apply exp_0.
Qed.

(** X20.  The value is odd under reflection at the barrier: the price at
    spot [S_0] is minus [(S_0/L)^(1 - 2r/sigma^2)] times the price at the
    mirrored spot [L^2/S_0].  A spot above the barrier is thus priced as
    the negative of a multiple of the price below it. *)
Theorem analytical_callprice_mirror (S_0 K L T sigma r : R) :
  0 < S_0 -> 0 < K -> 0 < L -> 0 < T -> sigma <> 0 ->
  exists v v' : R,
    analytical_callprice S_0 K L T sigma r = Val v /\
    analytical_callprice (L ^ 2 / S_0) K L T sigma r = Val v' /\
    v = - (Rpower (S_0 / L) (1 - 2 * r / sigma ^ 2) * v').
Proof.
  intros HS HK HL HT Hsig.
  assert (HM : 0 < L ^ 2 / S_0) by (apply Rdiv_lt_0_compat; nra).
  exists (code_price S_0 K L T sigma r), (code_price (L ^ 2 / S_0) K L T sigma r).
  split; [now apply analytical_callprice_val | ].
  split; [now apply analytical_callprice_val | ].
  rewrite (code_price_reflection S_0 K L T sigma r) by assumption.
  rewrite (code_price_reflection (L ^ 2 / S_0) K L T sigma r) by assumption.
  replace (L ^ 2 / (L ^ 2 / S_0)) with S_0 by (field; lra).
  replace (L ^ 2 / S_0 / L) with (/ (S_0 / L)) by (field; lra).
  assert (Hx : 0 < S_0 / L) by now apply Rdiv_lt_0_compat.
  generalize (Rpower_inv_base (S_0 / L) (1 - 2 * r / sigma ^ 2) Hx).
  set (w := Rpower (S_0 / L) (1 - 2 * r / sigma ^ 2)).
  set (w' := Rpower (/ (S_0 / L)) (1 - 2 * r / sigma ^ 2)).
  set (a := two_term S_0 K L T sigma r).
  set (b := two_term (L ^ 2 / S_0) K L T sigma r).
  intros Hw.
  replace (- (w * (b - w' * a))) with (w' * w * a - w * b) by ring.
  rewrite Hw. ring.
Qed.

Lemma analytical_callprice_mirror_witness :
  exists v v' : R,
    analytical_callprice 100 100 150 1 (3 / 10) (8 / 100) = Val v /\
    analytical_callprice (150 ^ 2 / 100) 100 150 1 (3 / 10) (8 / 100) = Val v' /\
    v = - (Rpower (100 / 150) (1 - 2 * (8 / 100) / (3 / 10) ^ 2) * v').
Proof.
  apply (analytical_callprice_mirror 100 100 150 1 (3 / 10) (8 / 100)); lra.
Defined.

